(** * Binary search tree of elementary-algorithms-in-javascript

    A shallow embedding of [lib/trees/binary_search_tree.js] and of the
    predicates of [lib/utils/utils.js] it calls.

    The JavaScript code works on node objects that are linked by the
    fields [left], [right] and [parent] and updated in place, so the
    embedding keeps an explicit store: node objects live in a list indexed
    by their address, arrays in a second list, and every function is a
    computation in a state-and-exception monad over that store.

    Modelling decisions:
    - a number is an integer ([Z]) or [NaN]: the integers are the keys on
      which [<] is a total order, and [NaN] is the number that [<] and
      [===] relate to nothing, itself included;
    - the values are [undefined], [null], booleans, numbers and references
      to node objects; strings are left out, as comparing one with a
      number needs the numeric-literal parser and no function of the module
      produces one;
    - a [while] loop or a recursive function takes a fuel argument; the
      entry points start it at one more than the number of objects in the
      store, which is more than any walk along a tree of node objects
      needs. Running out of fuel is the outcome [Fail OutOfFuel], never a
      value;
    - the arrays [toList] builds are fresh and never shared, so [toList]
      returns the sequence of elements itself; the array [fromList]
      receives is shared with the caller and lives in the store;
    - [wordcount] works on strings only: a string is the list of its
      UTF-16 code units and the function is a pure function on such lists. *)

From Stdlib Require Import ZArith List Lia.
From stdpp Require Import base list sorting.

Open Scope Z_scope.

Module BST.

(** ** Values and the store *)

Definition loc := nat.

Inductive val :=
  | VUndef
  | VNull
  | VBool (b : bool)
  | VNum (n : Z)
  | VNaN
  | VNode (a : loc).

Arguments VNode a%_nat.

#[global] Instance val_eq_dec : EqDecision val.
Proof. solve_decision. Defined.

(** The object [new Node] creates: [this.key], [this.left], [this.right],
    [this.parent]. *)
Record node := mkNode { key : val; left : val; right : val; parent : val }.

Record store := mkStore { nodes : list node; arrays : list (list val) }.

Definition empty_store : store := mkStore [] [].

Inductive field := Key | Left | Right | Parent.

Definition proj (f : field) (nd : node) : val :=
  match f with
  | Key => key nd
  | Left => left nd
  | Right => right nd
  | Parent => parent nd
  end.

Definition upd (f : field) (v : val) (nd : node) : node :=
  match f with
  | Key => mkNode v (left nd) (right nd) (parent nd)
  | Left => mkNode (key nd) v (right nd) (parent nd)
  | Right => mkNode (key nd) (left nd) v (parent nd)
  | Parent => mkNode (key nd) (left nd) (right nd) v
  end.

(** ** Outcomes and the monad *)

Inductive exn := TypeError.

Inductive failure :=
  | OutOfFuel
  | Dangling.

Inductive outcome (A : Type) :=
  | Ret (v : A) (s : store)
  | Throw (e : exn) (s : store)
  | Fail (f : failure).
Arguments Ret {A} v s.
Arguments Throw {A} e s.
Arguments Fail {A} f.

Definition M (A : Type) : Type := store -> outcome A.

Definition ret {A} (v : A) : M A := fun s => Ret v s.
Definition throw {A} (e : exn) : M A := fun s => Throw e s.
Definition fail {A} (f : failure) : M A := fun _ => Fail f.

Definition bind {A B} (m : M A) (k : A -> M B) : M B :=
  fun s =>
    match m s with
    | Ret v s' => k v s'
    | Throw e s' => Throw e s'
    | Fail f => Fail f
    end.

Notation "'let*' x ':=' m 'in' k" := (bind m (fun x => k))
  (at level 10, x pattern, m at level 100, k at level 200).
Notation "m ';;' k" := (bind m (fun _ => k))
  (at level 100, k at level 200, right associativity).

(** Fuel for a loop or a recursion that starts now. *)
Definition with_fuel {A} (f : nat -> M A) : M A :=
  fun s => f (S (length (nodes s))) s.

(** ** JavaScript primitives *)

(** [lib/utils/utils.js]: [typeof value === 'number']. *)
Definition isNumber (v : val) : bool :=
  match v with
  | VNum _ | VNaN => true
  | VUndef | VNull | VBool _ | VNode _ => false
  end.

(** ToBoolean. *)
Definition truthy (v : val) : bool :=
  match v with
  | VUndef | VNull => false
  | VBool b => b
  | VNum n => negb (n =? 0)
  | VNaN => false
  | VNode _ => true
  end.

(** ToNumber; [None] is NaN (an object converts through the string
    "[object Object]"). *)
Definition to_number (v : val) : option Z :=
  match v with
  | VUndef => None
  | VNull => Some 0
  | VBool b => Some (if b then 1 else 0)
  | VNum n => Some n
  | VNaN => None
  | VNode _ => None
  end.

(** [a < b]: false as soon as one side is NaN. *)
Definition js_lt (a b : val) : bool :=
  match to_number a, to_number b with
  | Some x, Some y => x <? y
  | _, _ => false
  end.

(** [a > b] is [b < a]. *)
Definition js_gt (a b : val) : bool := js_lt b a.

(** [a === b]: same type and same value, objects by identity; [NaN] is
    equal to nothing. *)
Definition js_seq (a b : val) : bool :=
  match a, b with
  | VNaN, _ | _, VNaN => false
  | _, _ => bool_decide (a = b)
  end.

(** [o.f]: a TypeError on [undefined] and [null], [undefined] on a
    primitive (no such property on its prototype). *)
Definition getf (f : field) (o : val) : M val :=
  fun s =>
    match o with
    | VUndef | VNull => Throw TypeError s
    | VBool _ | VNum _ | VNaN => Ret VUndef s
    | VNode a =>
        match nodes s !! a with
        | Some nd => Ret (proj f nd) s
        | None => Fail Dangling
        end
    end.

(** [o.f = v] in strict mode: a TypeError unless [o] is an object. *)
Definition setf (f : field) (o v : val) : M unit :=
  fun s =>
    match o with
    | VNode a =>
        match nodes s !! a with
        | Some nd => Ret tt (mkStore (<[a := upd f v nd]> (nodes s)) (arrays s))
        | None => Fail Dangling
        end
    | _ => Throw TypeError s
    end.

(** ** The constructor *)

(** [new Node(key, left, right)]; a missing argument is [undefined]. *)
Definition Node (k l r : val) : M val :=
  fun s =>
    if negb (isNumber k) then Throw TypeError s
    else
      Ret (VNode (length (nodes s)))
          (mkStore (nodes s ++ [mkNode k (if truthy l then l else VNull)
                                         (if truthy r then r else VNull)
                                         VNull])
                   (arrays s)).

(** ** insert *)

(** The [while (T !== null)] loop; the result is [parent]. *)
Fixpoint insert_loop (fuel : nat) (T k parent : val) {struct fuel} : M val :=
  if negb (js_seq T VNull) then
    match fuel with
    | O => fail OutOfFuel
    | S fuel' =>
        let* tk := getf Key T in
        if js_lt k tk then
          let* l := getf Left T in insert_loop fuel' l k T
        else
          let* r := getf Right T in insert_loop fuel' r k T
    end
  else ret parent.

Definition insert (T k : val) : M val :=
  let root := T in
  let* x := Node k VUndef VUndef in
  let* parent := with_fuel (fun fuel => insert_loop fuel T k VNull) in
  setf Parent x parent;;
  if js_seq parent VNull then ret x
  else
    let* pk := getf Key parent in
    if js_lt k pk then setf Left parent x;; ret root
    else setf Right parent x;; ret root.

(** ** Traversal *)

(** The second argument of [inOrderWalk]: a function, which here acts on
    an accumulator of the caller, or anything else. *)
Inductive visitor (A : Type) :=
  | NotCallable
  | Callable (f : val -> A -> A).
Arguments NotCallable {A}.
Arguments Callable {A} f.

(** [lib/utils/utils.js]: [typeof value === 'function']. *)
Definition isFunction {A} (fn : visitor A) : bool :=
  match fn with
  | Callable _ => true
  | NotCallable => false
  end.

(** [fn(k)]: calling what is not a function is a TypeError. *)
Definition call {A} (fn : visitor A) (k : val) (acc : A) : M A :=
  match fn with
  | Callable f => ret (f k acc)
  | NotCallable => throw TypeError
  end.

Fixpoint inOrderWalk_rec {A} (fuel : nat) (T : val) (fn : visitor A) (acc : A)
  : M A :=
  match fuel with
  | O => fail OutOfFuel
  | S fuel' =>
      if negb (isFunction fn) then throw TypeError
      else if truthy T then
        let* l := getf Left T in
        let* acc1 := inOrderWalk_rec fuel' l fn acc in
        let* k := getf Key T in
        let* acc2 := call fn k acc1 in
        let* r := getf Right T in
        inOrderWalk_rec fuel' r fn acc2
      else ret acc
  end.

Definition inOrderWalk {A} (T : val) (fn : visitor A) (acc : A) : M A :=
  with_fuel (fun fuel => inOrderWalk_rec fuel T fn acc).

Fixpoint toList_rec (fuel : nat) (T : val) : M (list val) :=
  match fuel with
  | O => fail OutOfFuel
  | S fuel' =>
      if negb (truthy T) then ret []
      else
        let* l := getf Left T in
        let* ll := toList_rec fuel' l in
        let* k := getf Key T in
        let* r := getf Right T in
        let* rl := toList_rec fuel' r in
        ret (ll ++ k :: rl)
  end.

Definition toList (T : val) : M (list val) :=
  with_fuel (fun fuel => toList_rec fuel T).

(** ** fromList *)

(** The argument of [fromList]: a reference to an array of the store, or
    a value that is not an array. *)
Inductive arg :=
  | NotArray (v : val)
  | Array (a : loc).
Arguments Array a%_nat.

(** [lib/utils/utils.js]: the class of the value is Array. *)
Definition isArray (X : arg) : bool :=
  match X with
  | Array _ => true
  | NotArray _ => false
  end.

(** [X.length] *)
Definition array_length (a : loc) : M nat :=
  fun s =>
    match arrays s !! a with
    | Some l => Ret (length l) s
    | None => Fail Dangling
    end.

(** [X.shift()]: removes the first element and returns it. *)
Definition shift (a : loc) : M val :=
  fun s =>
    match arrays s !! a with
    | Some [] => Ret VUndef s
    | Some (v :: l) => Ret v (mkStore (nodes s) (<[a := l]> (arrays s)))
    | None => Fail Dangling
    end.

Fixpoint fromList_rec (fuel : nat) (X : arg) : M val :=
  match fuel with
  | O => fail OutOfFuel
  | S fuel' =>
      if negb (isArray X) then throw TypeError
      else
        match X with
        | Array a =>
            let* n := array_length a in
            if (n =? 0)%nat then ret VNull
            else
              let* first := shift a in
              let* T := fromList_rec fuel' X in
              insert T first
        | NotArray _ => throw TypeError (* excluded by the test above *)
        end
  end.

(** The recursion is as deep as the array is long. *)
Definition fromList (X : arg) : M val :=
  fun s =>
    let n := match X with
             | Array a => match arrays s !! a with Some l => length l | None => O end
             | NotArray _ => O
             end in
    fromList_rec (S n) X s.

(** ** Queries *)

Fixpoint lookup_rec (fuel : nat) (T x : val) : M val :=
  match fuel with
  | O => fail OutOfFuel
  | S fuel' =>
      if negb (truthy T) then ret VNull
      else
        let* tk := getf Key T in
        if js_seq tk x then ret T
        else
          let* tk' := getf Key T in
          if js_lt x tk' then
            let* l := getf Left T in lookup_rec fuel' l x
          else
            let* r := getf Right T in lookup_rec fuel' r x
  end.

Definition lookup (T x : val) : M val :=
  with_fuel (fun fuel => lookup_rec fuel T x).

(** [while ((T) && (T.key !== x))]; the result is [T]. *)
Fixpoint search_loop (fuel : nat) (T x : val) {struct fuel} : M val :=
  if truthy T then
    let* tk := getf Key T in
    if negb (js_seq tk x) then
      match fuel with
      | O => fail OutOfFuel
      | S fuel' =>
          let* tk' := getf Key T in
          if js_lt x tk' then
            let* l := getf Left T in search_loop fuel' l x
          else
            let* r := getf Right T in search_loop fuel' r x
      end
    else ret T
  else ret T.

Definition search (T x : val) : M val :=
  with_fuel (fun fuel => search_loop fuel T x).

Fixpoint min_rec (fuel : nat) (T : val) : M val :=
  match fuel with
  | O => fail OutOfFuel
  | S fuel' =>
      if negb (truthy T) then ret VNull
      else
        let* l := getf Left T in
        if negb (truthy l) then getf Key T
        else let* l' := getf Left T in min_rec fuel' l'
  end.

Definition min (T : val) : M val := with_fuel (fun fuel => min_rec fuel T).

Fixpoint max_rec (fuel : nat) (T : val) : M val :=
  match fuel with
  | O => fail OutOfFuel
  | S fuel' =>
      if negb (truthy T) then ret VNull
      else
        let* r := getf Right T in
        if negb (truthy r) then getf Key T
        else let* r' := getf Right T in max_rec fuel' r'
  end.

Definition max (T : val) : M val := with_fuel (fun fuel => max_rec fuel T).

(** [while (p && x === p.right)]; the result is [p]. *)
Fixpoint succ_loop (fuel : nat) (x p : val) {struct fuel} : M val :=
  if truthy p then
    let* pr := getf Right p in
    if js_seq x pr then
      match fuel with
      | O => fail OutOfFuel
      | S fuel' => let* pp := getf Parent p in succ_loop fuel' p pp
      end
    else ret p
  else ret p.

Definition succ (x : val) : M val :=
  let* r := getf Right x in
  if truthy r then
    let* r' := getf Right x in min r'
  else
    let* p := getf Parent x in
    with_fuel (fun fuel => succ_loop fuel x p).

(** [while (p && x === p.left)]; the result is [p]. *)
Fixpoint pred_loop (fuel : nat) (x p : val) {struct fuel} : M val :=
  if truthy p then
    let* pl := getf Left p in
    if js_seq x pl then
      match fuel with
      | O => fail OutOfFuel
      | S fuel' => let* pp := getf Parent p in pred_loop fuel' p pp
      end
    else ret p
  else ret p.

Definition pred (x : val) : M val :=
  let* l := getf Left x in
  if truthy l then
    let* l' := getf Left x in max l'
  else
    let* p := getf Parent x in
    with_fuel (fun fuel => pred_loop fuel x p).

(** ** Deletion *)

Fixpoint deleteValue_rec (fuel : nat) (T x : val) : M val :=
  match fuel with
  | O => fail OutOfFuel
  | S fuel' =>
      if negb (truthy T) then ret VNull
      else
        let* k1 := getf Key T in
        if js_lt x k1 then
          let* k := getf Key T in
          let* l := getf Left T in
          let* l' := deleteValue_rec fuel' l x in
          let* r := getf Right T in
          Node k l' r
        else
          let* k2 := getf Key T in
          if js_gt x k2 then
            let* k := getf Key T in
            let* l := getf Left T in
            let* r := getf Right T in
            let* r' := deleteValue_rec fuel' r x in
            Node k l r'
          else
            let* k3 := getf Key T in
            let* no_left :=
              (if js_seq x k3 then
                 let* l := getf Left T in ret (negb (truthy l))
               else ret false) in
            if (no_left : bool) then getf Right T
            else
              let* k4 := getf Key T in
              let* no_right :=
                (if js_seq x k4 then
                   let* r := getf Right T in ret (negb (truthy r))
                 else ret false) in
              if (no_right : bool) then getf Left T
              else
                let* r1 := getf Right T in
                let* y := min r1 in
                let* l := getf Left T in
                let* r2 := getf Right T in
                let* r3 := getf Right T in
                let* y' := min r3 in
                let* r' := deleteValue_rec fuel' r2 y' in
                Node y l r'
  end.

Definition deleteValue (T x : val) : M val :=
  with_fuel (fun fuel => deleteValue_rec fuel T x).

Definition deleteNode (T x : val) : M val :=
  if negb (truthy x) then ret T
  else
    let root := T in
    let x1 := x in
    let* parent := getf Parent x in
    (* what follows [if ... else if ...] when it does not return *)
    let splice (x : val) : M val :=
      (if truthy x then setf Parent x parent else ret tt);;
      if negb (truthy parent) then ret x
      else
        let* pl := getf Left parent in
        if js_seq pl x1 then setf Left parent x;; ret root
        else setf Right parent x;; ret root in
    let* xl := getf Left x in
    if negb (truthy xl) then
      let* x' := getf Right x in splice x'
    else
      let* xr := getf Right x in
      if negb (truthy xr) then
        let* x' := getf Left x in splice x'
      else
        let* xr' := getf Right x in
        let* y := min xr' in
        let* yk := getf Key y in
        setf Key x yk;;
        let* yp := getf Parent y in
        if negb (js_seq yp x) then
          let* yp' := getf Parent y in
          let* yr := getf Right y in
          setf Left yp' yr;;
          ret root
        else
          let* yr := getf Right y in
          setf Right x yr;;
          ret root.

(** ** Node.prototype.delete *)

(** [this.delete()]: the method exists on node objects only, so the call
    on any other value is a TypeError ([undefined] and [null] have no
    properties, a primitive has no [delete] to call). *)
Fixpoint Node_delete_rec (fuel : nat) (this : val) : M unit :=
  match fuel with
  | O => fail OutOfFuel
  | S fuel' =>
      match this with
      | VNode _ =>
          let* l := getf Left this in
          (if truthy l then
             let* l' := getf Left this in Node_delete_rec fuel' l'
           else ret tt);;
          let* r := getf Right this in
          (if truthy r then
             let* r' := getf Right this in Node_delete_rec fuel' r'
           else ret tt);;
          setf Key this VUndef;;
          setf Left this VUndef;;
          setf Right this VUndef
      | _ => throw TypeError
      end
  end.

Definition Node_delete (this : val) : M unit :=
  with_fuel (fun fuel => Node_delete_rec fuel this).

End BST.

(** * wordcount

    The function of the introduction of the file. A string is the list of
    its UTF-16 code units; the [Map] is a list of entries in insertion
    order, as its iteration gives them. *)

Module WordCount.

Definition code := N.

(** The class [\s] of a regular expression: white space and line
    terminators. *)
Definition is_space (c : code) : bool :=
  match c with
  | 9 | 10 | 11 | 12 | 13 | 32 | 160 | 5760
  | 8192 | 8193 | 8194 | 8195 | 8196 | 8197 | 8198 | 8199 | 8200 | 8201 | 8202
  | 8232 | 8233 | 8239 | 8287 | 12288 | 65279 => true
  | _ => false
  end%N.

Definition entry : Type := list code * nat.

(** [dict.get(word)] *)
Fixpoint dict_get (w : list code) (d : list entry) : option nat :=
  match d with
  | [] => None
  | (w', v) :: d' => if decide (w' = w) then Some v else dict_get w d'
  end.

(** [dict.set(word, v)]: an entry that exists keeps its place. *)
Fixpoint dict_set (w : list code) (v : nat) (d : list entry) : list entry :=
  match d with
  | [] => [(w, v)]
  | (w', v') :: d' =>
      if decide (w' = w) then (w', v) :: d' else (w', v') :: dict_set w v d'
  end.

(** [value ? value + 1 : 1] *)
Definition next_count (value : option nat) : nat :=
  match value with
  | Some v => if (v =? 0)%nat then 1%nat else (v + 1)%nat
  | None => 1%nat
  end.

(** The [while (text.length)] loop; the result is [dict]. *)
Fixpoint wordcount_loop (text word : list code) (dict : list entry)
  : list entry :=
  match text with
  | [] => dict
  | chr :: text' =>
      if is_space chr then
        if negb (length word =? 0)%nat then
          let value := dict_get word dict in
          wordcount_loop text' [] (dict_set word (next_count value) dict)
        else wordcount_loop text' word dict
      else wordcount_loop text' (word ++ [chr]) dict
  end.

(** The decimal digits of a count. *)
Fixpoint digits (d : Decimal.uint) : list code :=
  match d with
  | Decimal.Nil => []
  | Decimal.D0 d => 48%N :: digits d
  | Decimal.D1 d => 49%N :: digits d
  | Decimal.D2 d => 50%N :: digits d
  | Decimal.D3 d => 51%N :: digits d
  | Decimal.D4 d => 52%N :: digits d
  | Decimal.D5 d => 53%N :: digits d
  | Decimal.D6 d => 54%N :: digits d
  | Decimal.D7 d => 55%N :: digits d
  | Decimal.D8 d => 56%N :: digits d
  | Decimal.D9 d => 57%N :: digits d
  end.

(** [val + '\n'] for an entry [val] of the map: the word, a comma, the
    count and a line feed. *)
Definition line (e : entry) : list code :=
  fst e ++ [44%N] ++ digits (Nat.to_uint (snd e)) ++ [10%N].

Definition wordcount (text : list code) : list code :=
  concat (map line (wordcount_loop text [] [])).

End WordCount.

Import BST.

(** ** Building a tree key by key *)

(** The keys of Figure 1.2, in the order they are inserted. *)
Definition example_keys : list Z := [4; 3; 8; 1; 7; 16; 2; 10; 9; 14].

(** [insert] called once per element, from the first to the last, each
    call on the root the previous one returned. *)
Fixpoint insert_all (T : val) (ks : list val) : M val :=
  match ks with
  | [] => ret T
  | k :: ks' => let* T' := insert T k in insert_all T' ks'
  end.

Definition example_tree : outcome val :=
  insert_all VNull (map VNum example_keys) empty_store.

(** The store after inserting 4, 3, 8, 1, 7, 16, 2, 10, 9, 14 into the
    empty tree: node [i] holds the [i]-th key inserted. *)
Definition example_store : store :=
  Eval vm_compute in
    match example_tree with
    | Ret _ s => s
    | _ => empty_store
    end.

(** ** The shape a value stands for

    A tree of the store is described by a tree of Rocq that records, for
    every node object, its address and its key. *)

Inductive tree :=
  | Leaf
  | Bin (l : tree) (a : loc) (k : Z) (r : tree).
Arguments Bin l a%_nat k%_Z r.

Fixpoint keys (t : tree) : list Z :=
  match t with
  | Leaf => []
  | Bin l _ k r => keys l ++ k :: keys r
  end.

Fixpoint locs (t : tree) : list loc :=
  match t with
  | Leaf => []
  | Bin l a _ r => locs l ++ a :: locs r
  end.

Fixpoint height (t : tree) : nat :=
  match t with
  | Leaf => O
  | Bin l _ _ r => S (Nat.max (height l) (height r))
  end.

(** The number of node objects of a tree. *)
Definition size (t : tree) : nat := length (locs t).

(** [rep h v t]: in the node list [h], the value [v] is the root of [t]. *)
Fixpoint rep (h : list node) (v : val) (t : tree) : Prop :=
  match t with
  | Leaf => v = VNull
  | Bin l a k r =>
      v = VNode a /\
      exists nd, h !! a = Some nd /\ key nd = VNum k /\
                 rep h (left nd) l /\ rep h (right nd) r
  end.

(** A tree of the store: a shape without sharing. *)
Definition tree_at (s : store) (T : val) (t : tree) : Prop :=
  rep (nodes s) T t /\ NoDup (locs t).

(** The links of a shape alone: [rep] without its condition on the keys,
    so that the keys of [t] describe nothing. It is what [insert] keeps
    when the keys it is given are numbers of any kind, [NaN] included. *)
Fixpoint links (h : list node) (v : val) (t : tree) : Prop :=
  match t with
  | Leaf => v = VNull
  | Bin l a _ r =>
      v = VNode a /\
      exists nd, h !! a = Some nd /\
                 links h (left nd) l /\ links h (right nd) r
  end.

Definition links_at (s : store) (T : val) (t : tree) : Prop :=
  links (nodes s) T t /\ NoDup (locs t).

(** The invariant of the specification: keys on the left are smaller,
    keys on the right are larger. *)
Fixpoint bst (t : tree) : Prop :=
  match t with
  | Leaf => True
  | Bin l _ k r =>
      Forall (fun x => x < k) (keys l) /\ Forall (fun x => k < x) (keys r) /\
      bst l /\ bst r
  end.

(** What [insert] maintains: an equal key goes to the right. *)
Fixpoint ordered (t : tree) : Prop :=
  match t with
  | Leaf => True
  | Bin l _ k r =>
      Forall (fun x => x < k) (keys l) /\ Forall (fun x => k <= x) (keys r) /\
      ordered l /\ ordered r
  end.

(** The place [insert] finds, as a function of the shape. *)
Fixpoint ins (t : tree) (x : loc) (k : Z) : tree :=
  match t with
  | Leaf => Bin Leaf x k Leaf
  | Bin l a k' r =>
      if k <? k' then Bin (ins l x k) a k' r else Bin l a k' (ins r x k)
  end.

(** The value of [parent] when the loop of [insert] ends. *)
Fixpoint ins_parent (t : tree) (k : Z) (parent : val) : val :=
  match t with
  | Leaf => parent
  | Bin l a k' r =>
      if k <? k' then ins_parent l k (VNode a) else ins_parent r k (VNode a)
  end.

(** The node the descent of [lookup] and [search] stops at. *)
Fixpoint find (t : tree) (x : val) : val :=
  match t with
  | Leaf => VNull
  | Bin l a k r =>
      if js_seq (VNum k) x then VNode a
      else if js_lt x (VNum k) then find l x else find r x
  end.

(** The key [min] returns on a non-empty tree. *)
Fixpoint leftmost (t : tree) (d : Z) : Z :=
  match t with
  | Leaf => d
  | Bin l _ k _ => leftmost l k
  end.

(** The visitor that appends each key to the caller's list. *)
Definition push : visitor (list val) := Callable (fun k acc => acc ++ [k]).

(** The shape of the tree of Figure 1.2 in [example_store]. *)
Definition example_shape : tree :=
  Bin (Bin (Bin Leaf 3 1 (Bin Leaf 6 2 Leaf)) 1 3 Leaf)
      0 4
      (Bin (Bin Leaf 4 7 Leaf)
           2 8
           (Bin (Bin (Bin Leaf 8 9 Leaf) 7 10 (Bin Leaf 9 14 Leaf)) 5 16 Leaf)).

(** A store that holds no node and the array 3, 1, 2. *)
Definition small_keys : list Z := [3; 1; 2].
Definition small_store : store := mkStore [] [map VNum small_keys].

(** ** Parent links *)

(** [plinks h p t]: in [t] the field [parent] of every node refers to the
    node above it, and the one of the root is [p]. *)
Fixpoint plinks (h : list node) (p : val) (t : tree) : Prop :=
  match t with
  | Leaf => True
  | Bin l a _ r =>
      (exists nd, h !! a = Some nd /\ parent nd = p) /\
      plinks h (VNode a) l /\ plinks h (VNode a) r
  end.

(** A tree of the store whose parent links are right; the root has none. *)
Definition linked (s : store) (T : val) (t : tree) : Prop :=
  tree_at s T t /\ plinks (nodes s) VNull t.

(** The key [max] returns on a non-empty tree. *)
Fixpoint rightmost (t : tree) (d : Z) : Z :=
  match t with
  | Leaf => d
  | Bin _ _ k r => rightmost r k
  end.

(** The first node of an in-order sequence of nodes, [null] if there is
    none. *)
Definition first_node (l : list loc) : val :=
  match l with
  | [] => VNull
  | b :: _ => VNode b
  end.

(** The last node of an in-order sequence of nodes, [null] if there is
    none. *)
Definition last_node (l : list loc) : val :=
  match last l with
  | None => VNull
  | Some b => VNode b
  end.

(** The shape without the node [a], which has at most one child: the
    child takes its place. *)
Fixpoint splice (t : tree) (a : loc) : tree :=
  match t with
  | Leaf => Leaf
  | Bin l b k r =>
      if decide (b = a) then
        match l with
        | Leaf => r
        | _ => l
        end
      else Bin (splice l a) b k (splice r a)
  end.
Arguments splice t a%_nat.

(** The child [deleteNode] puts in the place of a node with at most one
    child: [x.right] when there is no left child, [x.left] otherwise. *)
Definition child_of (nd : node) : val :=
  if negb (truthy (left nd)) then right nd else left nd.

(** What [deleteNode] makes of the node object at [b] when it removes the
    node [a], which has at most one child: the child gets the parent of
    [a], the parent gets the child in the place of [a], and every other
    object stays as it is. *)
Definition spliced (a : loc) (nda : node) (b : loc) (nd : node) : node :=
  if decide (VNode b = child_of nda) then upd Parent (parent nda) nd
  else if decide (VNode b = parent nda) then
    upd (if decide (left nd = VNode a) then Left else Right) (child_of nda) nd
  else nd.
Arguments spliced a%_nat nda b%_nat nd.

(** A node object after [delete]: the key and the children are
    [undefined], the parent is kept. *)
Definition cleared (nd : node) : node :=
  mkNode VUndef VUndef VUndef (parent nd).

(** The distinct elements of a list, each at its first occurrence. *)
Fixpoint firsts (ws : list (list WordCount.code)) : list (list WordCount.code) :=
  match ws with
  | [] => []
  | w :: ws' => w :: filter (fun w' => w' <> w) (firsts ws')
  end.

(** How often [w] occurs in [ws]. *)
Definition occurrences (w : list WordCount.code) (ws : list (list WordCount.code))
  : nat :=
  length (filter (fun w' => w' = w) ws).

(** What the loop of [wordcount] does to the map at the end of a word. *)
Definition bump (w : list WordCount.code) (d : list WordCount.entry)
  : list WordCount.entry :=
  WordCount.dict_set w (WordCount.next_count (WordCount.dict_get w d)) d.

(** The count the map holds for a word, 0 without an entry. *)
Definition count_of (d : list WordCount.entry) (w : list WordCount.code) : nat :=
  from_option id O (WordCount.dict_get w d).

(** A key the tree can order: a value that [<] and [===] place against
    every number, below it, equal to it or above it. *)
Definition orderable (v : val) : Prop :=
  forall n : Z,
    js_lt v (VNum n) = true \/ js_seq v (VNum n) = true \/ js_lt (VNum n) v = true.

(** A computation that leaves the store as it found it, however it
    ends. *)
Definition read_only {A} (m : M A) : Prop :=
  forall s,
    match m s with
    | Ret _ s' | Throw _ s' => s' = s
    | Fail _ => True
    end.

(** [s'] is [s] with new node objects appended, none of which has a
    parent. *)
Definition extends (s s' : store) : Prop :=
  exists new,
    s' = mkStore (nodes s ++ new) (arrays s) /\
    Forall (fun nd => parent nd = VNull) new.

(** A computation that only appends such node objects, however it ends. *)
Definition append_only {A} (m : M A) : Prop :=
  forall s,
    match m s with
    | Ret _ s' | Throw _ s' => extends s s'
    | Fail _ => True
    end.

(** * Properties *)

(** ** The store and the monad *)

Lemma bind_Ret {A B} (m : M A) (k : A -> M B) s v s' :
  m s = Ret v s' -> bind m k s = k v s'.
Proof. intros H. unfold bind. now rewrite H. Qed.

Lemma bind_Throw {A B} (m : M A) (k : A -> M B) s e s' :
  m s = Throw e s' -> bind m k s = Throw e s'.
Proof. intros H. unfold bind. now rewrite H. Qed.

Lemma getf_node f a nd s :
  nodes s !! a = Some nd -> getf f (VNode a) s = Ret (proj f nd) s.
Proof. intros H. unfold getf. now rewrite H. Qed.

Lemma setf_node f a v nd s :
  nodes s !! a = Some nd ->
  setf f (VNode a) v s = Ret tt (mkStore (<[a := upd f v nd]> (nodes s)) (arrays s)).
Proof. intros H. unfold setf. now rewrite H. Qed.

Lemma Node_number k l r s :
  Node (VNum k) l r s =
  Ret (VNode (length (nodes s)))
      (mkStore (nodes s ++ [mkNode (VNum k) (if truthy l then l else VNull)
                                   (if truthy r then r else VNull) VNull])
               (arrays s)).
Proof. reflexivity. Qed.

(** Running one field read of a node whose object is known. *)
Ltac read_field H :=
  erewrite bind_Ret by (apply getf_node; exact H); cbn [proj].

(** ** Shapes *)

Lemma rep_lookup h v t a :
  rep h v t -> a ∈ locs t -> (a < length h)%nat.
Proof.
  revert v. induction t as [|l IHl b k r IHr]; cbn; intros v Hr Ha.
  - inversion Ha.
  - destruct Hr as (_ & nd & Hnd & _ & Hl & Hrr).
    apply elem_of_app in Ha as [Ha|Ha]; [eauto|].
    apply elem_of_cons in Ha as [->|Ha]; [|eauto].
    eapply lookup_lt_Some; eauto.
Qed.

(** A shape only depends on the objects it names. *)
Lemma rep_frame h h' v t :
  rep h v t -> (forall a, a ∈ locs t -> h' !! a = h !! a) -> rep h' v t.
Proof.
  revert v. induction t as [|l IHl b k r IHr]; cbn; intros v Hr Hsame; [done|].
  destruct Hr as (-> & nd & Hnd & Hk & Hl & Hrr).
  split; [done|]. exists nd. repeat split; try done.
  - rewrite Hsame; [done|]. apply elem_of_app. right. apply elem_of_cons. now left.
  - apply IHl; [done|]. intros a Ha. apply Hsame, elem_of_app. now left.
  - apply IHr; [done|]. intros a Ha. apply Hsame, elem_of_app. right.
    apply elem_of_cons. now right.
Qed.

Lemma rep_app h h2 v t : rep h v t -> rep (h ++ h2) v t.
Proof.
  intros Hr. eapply rep_frame; [exact Hr|].
  intros a Ha. apply lookup_app_l. eapply rep_lookup; eauto.
Qed.

Lemma bounded_NoDup_length (l : list nat) n :
  NoDup l -> (forall a, a ∈ l -> (a < n)%nat) -> (length l <= n)%nat.
Proof.
  intros Hnd Hlt.
  assert (Hincl : incl l (seq 0%nat n)).
  { intros a Ha. apply in_seq. apply list_elem_of_In, Hlt in Ha. lia. }
  apply NoDup_incl_length in Hincl; [|now apply NoDup_ListNoDup].
  now rewrite length_seq in Hincl.
Qed.

Lemma height_le_size t : (height t <= length (locs t))%nat.
Proof.
  induction t as [|l IHl b k r IHr]; cbn; [lia|].
  rewrite length_app. cbn. lia.
Qed.

(** The fuel of the entry points is enough for a tree of the store. *)
Lemma height_lt_fuel s T t :
  tree_at s T t -> (height t < S (length (nodes s)))%nat.
Proof.
  intros [Hr Hnd].
  pose proof (height_le_size t) as H1.
  assert (H2 : (length (locs t) <= length (nodes s))%nat).
  { apply bounded_NoDup_length; [done|]. intros a Ha. eapply rep_lookup; eauto. }
  apply Nat.lt_succ_r. etrans; eauto.
Qed.

Lemma length_locs_keys t : length (locs t) = length (keys t).
Proof.
  induction t as [|l IHl b k r IHr]; cbn; [done|].
  rewrite !length_app. cbn. lia.
Qed.

(** ** Traversal *)

Lemma toList_rec_spec t : forall fuel s T,
  rep (nodes s) T t -> (height t < fuel)%nat ->
  toList_rec fuel T s = Ret (map VNum (keys t)) s.
Proof.
  induction t as [|l IHl b k r IHr]; intros fuel s T Hr Hf;
    (destruct fuel as [|fuel]; [lia|]); cbn in Hr.
  - subst T. reflexivity.
  - destruct Hr as (-> & nd & Hnd & Hk & Hl & Hrr). cbn in Hf.
    cbn [toList_rec truthy negb].
    read_field Hnd.
    erewrite bind_Ret by (apply IHl; [exact Hl | lia]).
    read_field Hnd.
    read_field Hnd.
    erewrite bind_Ret by (apply IHr; [exact Hrr | lia]).
    unfold ret. rewrite Hk. cbn [keys]. now rewrite map_app.
Qed.

Lemma toList_spec s T t :
  tree_at s T t -> toList T s = Ret (map VNum (keys t)) s.
Proof.
  intros Ht. unfold toList, with_fuel.
  apply toList_rec_spec; [apply Ht | eapply height_lt_fuel; eauto].
Qed.

Lemma inOrderWalk_rec_spec t : forall fuel s T acc,
  rep (nodes s) T t -> (height t < fuel)%nat ->
  inOrderWalk_rec fuel T push acc s = Ret (acc ++ map VNum (keys t)) s.
Proof.
  induction t as [|l IHl b k r IHr]; intros fuel s T acc Hr Hf;
    (destruct fuel as [|fuel]; [lia|]); cbn in Hr.
  - subst T. cbn. unfold ret. now rewrite app_nil_r.
  - destruct Hr as (-> & nd & Hnd & Hk & Hl & Hrr). cbn in Hf.
    cbn [inOrderWalk_rec push truthy isFunction negb].
    read_field Hnd.
    erewrite bind_Ret by (apply IHl; [exact Hl | lia]).
    read_field Hnd.
    erewrite bind_Ret by reflexivity.
    read_field Hnd.
    fold push. rewrite IHr; [|exact Hrr|lia].
    rewrite Hk. cbn [keys]. rewrite map_app. cbn [map].
    now rewrite <- !app_assoc.
Qed.

Lemma inOrderWalk_spec s T t :
  tree_at s T t -> inOrderWalk T push [] s = Ret (map VNum (keys t)) s.
Proof.
  intros Ht. unfold inOrderWalk, with_fuel.
  rewrite (inOrderWalk_rec_spec t); [done | apply Ht | eapply height_lt_fuel; eauto].
Qed.

(** ** insert *)

Lemma insert_loop_spec k t : forall fuel s T par,
  rep (nodes s) T t -> (height t < fuel)%nat ->
  insert_loop fuel T (VNum k) par s = Ret (ins_parent t k par) s.
Proof.
  induction t as [|l IHl b k' r IHr]; intros fuel s T par Hr Hf; cbn in Hr.
  - subst T. now destruct fuel.
  - destruct Hr as (-> & nd & Hnd & Hk & Hl & Hrr). cbn in Hf.
    destruct fuel as [|fuel]; [lia|].
    cbn [insert_loop]. unfold js_seq. rewrite bool_decide_eq_false_2 by done.
    cbn [negb]. read_field Hnd. rewrite Hk.
    unfold js_lt. cbn [to_number ins_parent].
    destruct (k <? k').
    + read_field Hnd. apply IHl; [done|lia].
    + read_field Hnd. apply IHr; [done|lia].
Qed.

(** Linking the new node under the parent the loop found turns the shape
    into [ins t x k]; [h'] is any node list that differs from [h] at the
    parent and at the new node only. *)
Lemma ins_rep k x t : forall h T par,
  rep h T t -> NoDup (locs t) -> x ∉ locs t -> t <> Leaf ->
  exists p ndp kp,
    ins_parent t k par = VNode p /\ p ∈ locs t /\
    h !! p = Some ndp /\ key ndp = VNum kp /\
    forall h' ndx,
      (forall a, a ∈ locs t -> a <> p -> h' !! a = h !! a) ->
      h' !! p = Some (upd (if k <? kp then Left else Right) (VNode x) ndp) ->
      h' !! x = Some ndx -> key ndx = VNum k ->
      left ndx = VNull -> right ndx = VNull ->
      rep h' T (ins t x k).
Proof.
  induction t as [|l IHl b k' r IHr]; intros h T par Hr Hnd Hx Hne; [done|].
  cbn in Hr. destruct Hr as (-> & nd & Hb & Hk & Hl & Hrr).
  cbn [locs] in Hnd, Hx.
  apply NoDup_app in Hnd as (Hndl & Hlr & Hndr).
  apply NoDup_cons in Hndr as (Hbr & Hndr).
  assert (Hbl : b ∉ locs l).
  { intros Hin. apply (Hlr _ Hin). apply elem_of_cons. now left. }
  assert (Hxl : x ∉ locs l) by (intros ?; apply Hx, elem_of_app; now left).
  assert (Hxr : x ∉ locs r).
  { intros ?. apply Hx, elem_of_app. right. apply elem_of_cons. now right. }
  cbn [ins_parent ins].
  destruct (k <? k') eqn:Hlt.
  - destruct l as [|ll lb lk lr].
    + (* the new node becomes the left child of [b] *)
      exists b, nd, k'. cbn [ins_parent locs]. rewrite Hlt.
      split_and!; try done.
      { apply elem_of_cons. now left. }
      intros h' ndx Hsame Hp Hxx Hxk Hxl' Hxr'. cbn.
      split; [done|]. eexists. split; [exact Hp|]. cbn.
      split_and!; try done.
      * eexists. split; [exact Hxx|]. rewrite Hxl', Hxr'. done.
      * eapply rep_frame; [exact Hrr|]. intros a Ha. apply Hsame.
        -- apply elem_of_cons. now right.
        -- intros ->. done.
    + destruct (IHl h (left nd) (VNode b) Hl Hndl Hxl) as
        (p & ndp & kp & Hpar & Hpin & Hpl & Hpk & Hupd); [done|].
      exists p, ndp, kp. split_and!; try done.
      { apply elem_of_app. now left. }
      intros h' ndx Hsame Hp Hxx Hxk Hxl' Hxr'. cbn.
      assert (Hpb : b <> p) by (intros ->; done).
      split; [done|]. exists nd. split_and!; try done.
      * rewrite Hsame; [done| |done]. apply elem_of_app. right.
        apply elem_of_cons. now left.
      * eapply Hupd; eauto. intros a Ha Hap. apply Hsame; [|done].
        apply elem_of_app. now left.
      * eapply rep_frame; [exact Hrr|]. intros a Ha. apply Hsame.
        -- apply elem_of_app. right. apply elem_of_cons. now right.
        -- intros ->. apply (Hlr _ Hpin). apply elem_of_cons. now right.
  - destruct r as [|rl rb rk rr].
    + (* the new node becomes the right child of [b] *)
      exists b, nd, k'. cbn [ins_parent locs]. rewrite Hlt.
      split_and!; try done.
      { apply elem_of_app. right. apply elem_of_cons. now left. }
      intros h' ndx Hsame Hp Hxx Hxk Hxl' Hxr'. cbn.
      split; [done|]. eexists. split; [exact Hp|]. cbn.
      split_and!; try done.
      * eapply rep_frame; [exact Hl|]. intros a Ha. apply Hsame.
        -- apply elem_of_app. now left.
        -- intros ->. done.
      * eexists. split; [exact Hxx|]. rewrite Hxl', Hxr'. done.
    + destruct (IHr h (right nd) (VNode b) Hrr Hndr Hxr) as
        (p & ndp & kp & Hpar & Hpin & Hpl & Hpk & Hupd); [done|].
      exists p, ndp, kp. split_and!; try done.
      { apply elem_of_app. right. apply elem_of_cons. now right. }
      intros h' ndx Hsame Hp Hxx Hxk Hxl' Hxr'. cbn.
      assert (Hpb : b <> p) by (intros ->; done).
      split; [done|]. exists nd. split_and!; try done.
      * rewrite Hsame; [done| |done]. apply elem_of_app. right.
        apply elem_of_cons. now left.
      * eapply rep_frame; [exact Hl|]. intros a Ha. apply Hsame.
        -- apply elem_of_app. now left.
        -- intros ->. apply (Hlr _ Ha). apply elem_of_cons. now right.
      * eapply Hupd; eauto. intros a Ha Hap. apply Hsame; [|done].
        apply elem_of_app. right. apply elem_of_cons. now right.
Qed.

Lemma locs_ins t x k : locs (ins t x k) ≡ₚ x :: locs t.
Proof.
  induction t as [|l IHl b k' r IHr]; cbn; [done|].
  destruct (k <? k'); cbn.
  - rewrite IHl. done.
  - rewrite IHr. rewrite <- !Permutation_middle. apply perm_swap.
Qed.

Lemma keys_ins t x k : keys (ins t x k) ≡ₚ k :: keys t.
Proof.
  induction t as [|l IHl b k' r IHr]; cbn; [done|].
  destruct (k <? k'); cbn.
  - rewrite IHl. done.
  - rewrite IHr. rewrite <- !Permutation_middle. apply perm_swap.
Qed.

Lemma ordered_ins t x k : ordered t -> ordered (ins t x k).
Proof.
  induction t as [|l IHl b k' r IHr]; cbn.
  - intros _. repeat split; constructor.
  - intros (Hl & Hr & Hol & Hor).
    destruct (k <? k') eqn:Hlt; cbn; repeat split; auto.
    + rewrite keys_ins. constructor; [lia|done].
    + rewrite keys_ins. constructor; [lia|done].
Qed.

Lemma ordered_sorted t : ordered t -> StronglySorted Z.le (keys t).
Proof.
  induction t as [|l IHl b k r IHr]; cbn; [constructor|].
  intros (Hl & Hr & Hol & Hor).
  specialize (IHl Hol). specialize (IHr Hor).
  clear Hol Hor. induction IHl as [|y ys Hys IH Hall].
  - cbn. constructor; [done|]. eapply Forall_impl; [exact Hr|]. cbn. lia.
  - cbn. apply Forall_cons in Hl as [Hy Hl].
    constructor; [auto|].
    apply Forall_app. split; [done|].
    constructor; [lia|]. eapply Forall_impl; [exact Hr|]. cbn. lia.
Qed.

Lemma insert_spec s T t k :
  tree_at s T t ->
  exists T' s',
    insert T (VNum k) s = Ret T' s' /\
    tree_at s' T' (ins t (length (nodes s)) k) /\
    arrays s' = arrays s /\
    length (nodes s') = S (length (nodes s)).
Proof.
  intros Ht. pose proof (height_lt_fuel _ _ _ Ht) as Hfuel.
  destruct Ht as [Hr Hnd].
  set (x := length (nodes s)).
  set (ndx := mkNode (VNum k) VNull VNull VNull).
  set (s1 := mkStore (nodes s ++ [ndx]) (arrays s)).
  assert (Hx : x ∉ locs t).
  { intros Hin. apply (rep_lookup _ _ _ _ Hr) in Hin. unfold x in Hin. lia. }
  assert (Hxx : nodes s1 !! x = Some ndx).
  { cbn. unfold x. rewrite lookup_app_r by lia. now rewrite Nat.sub_diag. }
  assert (Hr1 : rep (nodes s1) T t) by (cbn; now apply rep_app).
  assert (Hnd' : NoDup (locs (ins t x k))).
  { rewrite locs_ins. now apply NoDup_cons. }
  unfold insert.
  erewrite bind_Ret by apply Node_number. cbn [truthy]. fold ndx s1 x.
  erewrite bind_Ret; cycle 1.
  { unfold with_fuel. apply insert_loop_spec with (t := t); [exact Hr1|].
    cbn. rewrite length_app. cbn. lia. }
  assert (t = Leaf \/ t <> Leaf) as [->|Hne] by (destruct t; [left|right]; done).
  - cbn [ins_parent].
    erewrite bind_Ret by (apply setf_node; exact Hxx).
    unfold js_seq. rewrite bool_decide_eq_true_2 by done. unfold ret.
    eexists _, _. split; [reflexivity|]. cbn [nodes arrays].
    split_and!; try done.
    + split; [|done]. cbn. split; [done|].
      eexists. split; [apply list_lookup_insert_eq; eapply lookup_lt_Some; eauto|].
      done.
    + rewrite length_insert. unfold s1, x. cbn. rewrite length_app. cbn. lia.
  - destruct (ins_rep k x t (nodes s1) T VNull Hr1 Hnd Hx Hne) as
      (p & ndp & kp & Hpar & Hpin & Hpl & Hpk & Hupd).
    rewrite Hpar.
    assert (Hpx : x <> p) by (intros ->; done).
    erewrite bind_Ret by (apply setf_node; exact Hxx).
    unfold js_seq. rewrite bool_decide_eq_false_2 by done.
    erewrite bind_Ret; cycle 1.
    { apply getf_node. cbn [nodes]. rewrite list_lookup_insert_ne by done.
      exact Hpl. }
    cbn [proj]. rewrite Hpk. unfold js_lt. cbn [to_number].
    assert (Hfin : forall f,
      f = (if k <? kp then Left else Right) ->
      exists s',
        (setf f (VNode p) (VNode x);; ret T)
          (mkStore (<[x := upd Parent (VNode p) ndx]> (nodes s1)) (arrays s1))
        = Ret T s' /\
        tree_at s' T (ins t x k) /\ arrays s' = arrays s /\
        length (nodes s') = S (length (nodes s))).
    { intros f Hf.
      erewrite bind_Ret; cycle 1.
      { apply setf_node. cbn [nodes]. rewrite list_lookup_insert_ne by done.
        exact Hpl. }
      unfold ret. eexists. split; [reflexivity|]. cbn [nodes arrays].
      split_and!; try done.
      - split; [|done]. cbn [nodes].
        eapply Hupd with (ndx := upd Parent (VNode p) ndx); try done.
        + intros a Ha Hap. rewrite list_lookup_insert_ne by done.
          rewrite list_lookup_insert_ne; [done|]. intros <-. done.
        + rewrite Hf. apply list_lookup_insert_eq.
          rewrite length_insert. eapply lookup_lt_Some; eauto.
        + rewrite list_lookup_insert_ne by done.
          apply list_lookup_insert_eq. eapply lookup_lt_Some; eauto.
      - rewrite !length_insert. unfold s1, x. cbn. rewrite length_app. cbn. lia. }
    destruct (k <? kp).
    + destruct (Hfin Left eq_refl) as (s' & Heq & ?). eauto.
    + destruct (Hfin Right eq_refl) as (s' & Heq & ?). eauto.
Qed.

Lemma insert_all_spec ks : forall s T t,
  tree_at s T t -> ordered t ->
  exists T' s' t',
    insert_all T (map VNum ks) s = Ret T' s' /\
    tree_at s' T' t' /\ ordered t' /\
    keys t' ≡ₚ ks ++ keys t /\
    arrays s' = arrays s.
Proof.
  induction ks as [|k ks IH]; intros s T t Ht Ho; cbn [map insert_all].
  - exists T, s, t. done.
  - destruct (insert_spec s T t k Ht) as (T1 & s1 & Hins & Ht1 & Harr & _).
    erewrite bind_Ret by exact Hins.
    destruct (IH s1 T1 _ Ht1 (ordered_ins _ _ _ Ho)) as
      (T' & s' & t' & Hall & Ht' & Ho' & Hperm & Harr').
    exists T', s', t'. split_and!; try done.
    + rewrite Hperm, keys_ins. cbn. now rewrite <- Permutation_middle.
    + congruence.
Qed.

Lemma tree_at_null s : tree_at s VNull Leaf.
Proof. split; [done|constructor]. Qed.

Lemma sorted_keys_unique (l : list Z) ks :
  StronglySorted Z.le l -> l ≡ₚ ks -> l = merge_sort Z.le ks.
Proof.
  intros Hs Hp.
  apply (Sorted_unique Z.le); [by apply StronglySorted_Sorted| |].
  - apply Sorted_merge_sort. apply _.
  - now rewrite merge_sort_Permutation.
Qed.

(** Inserting keys one by one into the empty tree gives a tree whose
    in-order sequence is the sorted sequence of the keys. *)
Lemma insert_all_sorted ks s :
  exists T s' t,
    insert_all VNull (map VNum ks) s = Ret T s' /\
    tree_at s' T t /\
    StronglySorted Z.le (keys t) /\ keys t ≡ₚ ks /\
    keys t = merge_sort Z.le ks /\
    arrays s' = arrays s.
Proof.
  destruct (insert_all_spec ks s VNull Leaf (tree_at_null s) I) as
    (T & s' & t & Hall & Ht & Ho & Hperm & Harr).
  cbn in Hperm. rewrite app_nil_r in Hperm.
  exists T, s', t. split_and!; try done.
  - now apply ordered_sorted.
  - apply sorted_keys_unique; [now apply ordered_sorted|done].
Qed.

(** C2. For every finite sequence of numeric keys, inserting them one by
    one into the empty tree gives a tree whose in-order traversal, read by
    [toList] or by [inOrderWalk] with a visitor that appends to a list, is
    the sequence sorted in ascending order; the keys
    4, 3, 8, 1, 7, 16, 2, 10, 9, 14 give 1, 2, 3, 4, 7, 8, 9, 10, 14, 16. *)
Theorem insert_traversal_sorted (ks : list Z) (s : store) :
  (exists T s' l,
     insert_all VNull (map VNum ks) s = Ret T s' /\
     toList T s' = Ret (map VNum l) s' /\
     inOrderWalk T push [] s' = Ret (map VNum l) s' /\
     StronglySorted Z.le l /\ l ≡ₚ ks /\ l = merge_sort Z.le ks) /\
  (exists T s',
     insert_all VNull (map VNum example_keys) s = Ret T s' /\
     toList T s' = Ret (map VNum [1; 2; 3; 4; 7; 8; 9; 10; 14; 16]) s').
Proof.
  split.
  - destruct (insert_all_sorted ks s) as
      (T & s' & t & Hall & Ht & Hs & Hp & Hk & _).
    exists T, s', (keys t). split_and!; try done.
    + now apply toList_spec.
    + now apply inOrderWalk_spec.
  - destruct (insert_all_sorted example_keys s) as
      (T & s' & t & Hall & Ht & _ & _ & Hk & _).
    exists T, s'. split; [done|].
    rewrite (toList_spec _ _ _ Ht), Hk. reflexivity.
Qed.

(** ** The constructor and non-numeric keys *)

Lemma insert_not_number T k s :
  isNumber k = false -> insert T k s = Throw TypeError s.
Proof. intros H. unfold insert, bind, Node. now rewrite H. Qed.

Lemma links_lookup h v t a :
  links h v t -> a ∈ locs t -> (a < length h)%nat.
Proof.
  revert v. induction t as [|l IHl b k r IHr]; cbn; intros v Hr Ha.
  - inversion Ha.
  - destruct Hr as (_ & nd & Hnd & Hl & Hrr).
    apply elem_of_app in Ha as [Ha|Ha]; [eauto|].
    apply elem_of_cons in Ha as [->|Ha]; [|eauto].
    eapply lookup_lt_Some; eauto.
Qed.

Lemma links_frame h h' v t :
  links h v t -> (forall a, a ∈ locs t -> h' !! a = h !! a) -> links h' v t.
Proof.
  revert v. induction t as [|l IHl b k r IHr]; cbn; intros v Hr Hsame; [done|].
  destruct Hr as (-> & nd & Hnd & Hl & Hrr).
  split; [done|]. exists nd. repeat split; try done.
  - rewrite Hsame; [done|]. apply elem_of_app. right. apply elem_of_cons. now left.
  - apply IHl; [done|]. intros a Ha. apply Hsame, elem_of_app. now left.
  - apply IHr; [done|]. intros a Ha. apply Hsame, elem_of_app. right.
    apply elem_of_cons. now right.
Qed.

Lemma links_at_null s : links_at s VNull Leaf.
Proof. split; [done|constructor]. Qed.

Lemma links_fuel s T t :
  links_at s T t -> (height t < S (length (nodes s)))%nat.
Proof.
  intros [Hr Hnd].
  pose proof (height_le_size t) as H1.
  assert (H2 : (length (locs t) <= length (nodes s))%nat).
  { apply bounded_NoDup_length; [done|]. intros a Ha. eapply links_lookup; eauto. }
  apply Nat.lt_succ_r. etrans; eauto.
Qed.

(** The loop of [insert] over linked objects with keys of any kind: it
    stops at an object [p] of the structure, and writing the new object
    [x] into the field of [p] that the test [k < p.key] selects gives a
    structure with one more object. *)
Lemma insert_loop_links k x t : forall fuel s T par,
  links (nodes s) T t -> NoDup (locs t) -> x ∉ locs t ->
  (height t < fuel)%nat -> t <> Leaf ->
  exists p ndp t',
    insert_loop fuel T k par s = Ret (VNode p) s /\ p ∈ locs t /\
    nodes s !! p = Some ndp /\ locs t' ≡ₚ x :: locs t /\
    forall h' ndx,
      (forall a, a ∈ locs t -> a <> p -> h' !! a = nodes s !! a) ->
      h' !! p = Some (upd (if js_lt k (key ndp) then Left else Right) (VNode x) ndp) ->
      h' !! x = Some ndx -> left ndx = VNull -> right ndx = VNull ->
      links h' T t'.
Proof.
  induction t as [|l IHl b k' r IHr]; intros fuel s T par Hr Hnd Hx Hf Hne; [done|].
  cbn in Hr. destruct Hr as (-> & nd & Hb & Hl & Hrr).
  cbn [locs] in Hnd, Hx.
  apply NoDup_app in Hnd as (Hndl & Hlr & Hndr).
  apply NoDup_cons in Hndr as (Hbr & Hndr).
  assert (Hbl : b ∉ locs l).
  { intros Hin. apply (Hlr _ Hin). apply elem_of_cons. now left. }
  assert (Hxl : x ∉ locs l) by (intros ?; apply Hx, elem_of_app; now left).
  assert (Hxr : x ∉ locs r).
  { intros ?. apply Hx, elem_of_app. right. apply elem_of_cons. now right. }
  cbn in Hf. destruct fuel as [|fuel]; [lia|].
  cbn [insert_loop]. unfold js_seq. rewrite bool_decide_eq_false_2 by done.
  cbn [negb]. read_field Hb.
  destruct (js_lt k (key nd)) eqn:Hlt; read_field Hb.
  - destruct l as [|ll lb lk lr].
    + cbn in Hl. rewrite Hl.
      exists b, nd, (Bin (Bin Leaf x 0 Leaf) b k' r). rewrite Hlt.
      split_and!; try done.
      { now destruct fuel. }
      { apply elem_of_cons. now left. }
      intros h' ndx Hsame Hp Hxx Hxl' Hxr'. cbn.
      split; [done|]. eexists. split; [exact Hp|]. cbn.
      split_and!; try done.
      * eexists. split; [exact Hxx|]. rewrite Hxl', Hxr'. done.
      * eapply links_frame; [exact Hrr|]. intros a Ha. apply Hsame.
        -- apply elem_of_cons. now right.
        -- intros ->. done.
    + destruct (IHl fuel s (left nd) (VNode b) Hl Hndl Hxl) as
        (p & ndp & t' & Hrun & Hpin & Hpl & Hperm & Hupd); [lia|done|].
      exists p, ndp, (Bin t' b k' r). split_and!; try done.
      { apply elem_of_app. now left. }
      { cbn [locs]. now rewrite Hperm. }
      intros h' ndx Hsame Hp Hxx Hxl' Hxr'. cbn.
      assert (Hpb : b <> p) by (intros ->; done).
      split; [done|]. exists nd. split_and!; try done.
      * rewrite Hsame; [done| |done]. apply elem_of_app. right.
        apply elem_of_cons. now left.
      * eapply Hupd; eauto. intros a Ha Hap. apply Hsame; [|done].
        apply elem_of_app. now left.
      * eapply links_frame; [exact Hrr|]. intros a Ha. apply Hsame.
        -- apply elem_of_app. right. apply elem_of_cons. now right.
        -- intros ->. apply (Hlr _ Hpin). apply elem_of_cons. now right.
  - destruct r as [|rl rb rk rr].
    + cbn in Hrr. rewrite Hrr.
      exists b, nd, (Bin l b k' (Bin Leaf x 0 Leaf)). rewrite Hlt.
      split_and!; try done.
      { now destruct fuel. }
      { apply elem_of_app. right. apply elem_of_cons. now left. }
      { cbn [locs app]. rewrite <- !Permutation_middle. apply perm_swap. }
      intros h' ndx Hsame Hp Hxx Hxl' Hxr'. cbn.
      split; [done|]. eexists. split; [exact Hp|]. cbn.
      split_and!; try done.
      * eapply links_frame; [exact Hl|]. intros a Ha. apply Hsame.
        -- apply elem_of_app. now left.
        -- intros ->. done.
      * eexists. split; [exact Hxx|]. rewrite Hxl', Hxr'. done.
    + destruct (IHr fuel s (right nd) (VNode b) Hrr Hndr Hxr) as
        (p & ndp & t' & Hrun & Hpin & Hpl & Hperm & Hupd); [lia|done|].
      exists p, ndp, (Bin l b k' t'). split_and!; try done.
      { apply elem_of_app. right. apply elem_of_cons. now right. }
      { change (locs l ++ b :: locs t' ≡ₚ x :: locs l ++ b :: locs (Bin rl rb rk rr)).
        rewrite Hperm. generalize (locs (Bin rl rb rk rr)). intros L.
        rewrite <- !Permutation_middle. apply perm_swap. }
      intros h' ndx Hsame Hp Hxx Hxl' Hxr'. cbn.
      assert (Hpb : b <> p) by (intros ->; done).
      split; [done|]. exists nd. split_and!; try done.
      * rewrite Hsame; [done| |done]. apply elem_of_app. right.
        apply elem_of_cons. now left.
      * eapply links_frame; [exact Hl|]. intros a Ha. apply Hsame.
        -- apply elem_of_app. now left.
        -- intros ->. apply (Hlr _ Ha). apply elem_of_cons. now right.
      * eapply Hupd; eauto. intros a Ha Hap. apply Hsame; [|done].
        apply elem_of_app. right. apply elem_of_cons. now right.
Qed.

(** [insert] with a key that is a number, [NaN] included, ends normally
    and keeps the objects linked as a tree. *)
Lemma insert_links_any s T t k :
  links_at s T t -> isNumber k = true ->
  exists T' s' t',
    insert T k s = Ret T' s' /\ links_at s' T' t' /\ arrays s' = arrays s.
Proof.
  intros Ht Hk. pose proof (links_fuel _ _ _ Ht) as Hfuel.
  destruct Ht as [Hr Hnd].
  set (x := length (nodes s)).
  set (ndx := mkNode k VNull VNull VNull).
  set (s1 := mkStore (nodes s ++ [ndx]) (arrays s)).
  assert (Hx : x ∉ locs t).
  { intros Hin. apply (links_lookup _ _ _ _ Hr) in Hin. unfold x in Hin. lia. }
  assert (Hxx : nodes s1 !! x = Some ndx).
  { cbn. unfold x. rewrite lookup_app_r by lia. now rewrite Nat.sub_diag. }
  assert (Hr1 : links (nodes s1) T t).
  { eapply links_frame; [exact Hr|]. intros a Ha. cbn. apply lookup_app_l.
    eapply links_lookup; eauto. }
  assert (HN : Node k VUndef VUndef s = Ret (VNode x) s1).
  { unfold Node. now rewrite Hk. }
  unfold insert. erewrite bind_Ret by exact HN.
  assert (t = Leaf \/ t <> Leaf) as [->|Hne] by (destruct t; [left|right]; done).
  - cbn in Hr. subst T.
    erewrite bind_Ret; cycle 1.
    { unfold with_fuel. cbn [insert_loop]. reflexivity. }
    erewrite bind_Ret by (apply setf_node; exact Hxx).
    unfold js_seq. rewrite bool_decide_eq_true_2 by done. unfold ret.
    eexists (VNode x), _, (Bin Leaf x 0 Leaf). split; [reflexivity|].
    split; [|done]. split.
    + cbn. split; [done|].
      eexists. split; [apply list_lookup_insert_eq; eapply lookup_lt_Some; eauto|].
      done.
    + cbn. apply NoDup_singleton.
  - destruct (insert_loop_links k x t (S (length (nodes s1))) s1 T VNull
                Hr1 Hnd Hx) as (p & ndp & t' & Hrun & Hpin & Hpl & Hperm & Hupd);
      [cbn; rewrite length_app; cbn; lia|done|].
    erewrite bind_Ret by (unfold with_fuel; exact Hrun).
    assert (Hpx : x <> p) by (intros ->; done).
    erewrite bind_Ret by (apply setf_node; exact Hxx).
    unfold js_seq. rewrite bool_decide_eq_false_2 by done.
    erewrite bind_Ret; cycle 1.
    { apply getf_node. cbn [nodes]. rewrite list_lookup_insert_ne by done.
      exact Hpl. }
    cbn [proj].
    assert (Hfin : forall f,
      f = (if js_lt k (key ndp) then Left else Right) ->
      exists s',
        (setf f (VNode p) (VNode x);; ret T)
          (mkStore (<[x := upd Parent (VNode p) ndx]> (nodes s1)) (arrays s1))
        = Ret T s' /\
        links_at s' T t' /\ arrays s' = arrays s).
    { intros f Hf.
      erewrite bind_Ret; cycle 1.
      { apply setf_node. cbn [nodes]. rewrite list_lookup_insert_ne by done.
        exact Hpl. }
      unfold ret. eexists. split; [reflexivity|]. cbn [nodes arrays].
      split; [|done]. split.
      - cbn [nodes].
        eapply Hupd with (ndx := upd Parent (VNode p) ndx); try done.
        + intros a Ha Hap. rewrite list_lookup_insert_ne by done.
          rewrite list_lookup_insert_ne; [done|]. intros <-. done.
        + rewrite Hf. apply list_lookup_insert_eq.
          rewrite length_insert. eapply lookup_lt_Some; eauto.
        + rewrite list_lookup_insert_ne by done.
          apply list_lookup_insert_eq. eapply lookup_lt_Some; eauto.
      - rewrite Hperm. now apply NoDup_cons. }
    destruct (js_lt k (key ndp)).
    + destruct (Hfin Left eq_refl) as (s' & Heq & ?). eauto.
    + destruct (Hfin Right eq_refl) as (s' & Heq & ?). eauto.
Qed.

(** Whatever the elements are, a run of [insert] over linked objects of
    the store ends normally or with a TypeError, and leaves the arrays
    alone. *)
Lemma insert_all_outcome l : forall s T t,
  links_at s T t ->
  exists s', arrays s' = arrays s /\
    ((exists T', insert_all T l s = Ret T' s') \/
     insert_all T l s = Throw TypeError s').
Proof.
  induction l as [|v l IH]; intros s T t Ht; cbn [insert_all].
  - exists s. split; [done|]. left. now exists T.
  - destruct (isNumber v) eqn:Hv.
    + destruct (insert_links_any s T t v Ht Hv) as (T1 & s1 & t1 & Hins & Ht1 & Harr).
      erewrite bind_Ret by exact Hins.
      destruct (IH s1 T1 _ Ht1) as (s' & Harr' & Hout).
      exists s'. split; [congruence|done].
    + exists s. split; [done|]. right.
      now erewrite bind_Throw by (now apply insert_not_number).
Qed.

(** ** fromList *)

Lemma insert_all_app l1 : forall l2 T s,
  insert_all T (l1 ++ l2) s =
  (let* T' := insert_all T l1 in insert_all T' l2) s.
Proof.
  induction l1 as [|v l1 IH]; intros l2 T s; cbn [app insert_all].
  - reflexivity.
  - unfold bind. destruct (insert T v s); [apply IH|done|done].
Qed.

Lemma insert_all_one T v s : insert_all T [v] s = insert T v s.
Proof. cbn. unfold bind, ret. now destruct (insert T v s). Qed.

(** What [fromList] does to an array: it first removes all the elements,
    from the front, and then inserts them from the last to the first. *)
Lemma fromList_rec_right_fold l : forall fuel s a,
  arrays s !! a = Some l -> (length l < fuel)%nat ->
  fromList_rec fuel (Array a) s =
  insert_all VNull (rev l) (mkStore (nodes s) (<[a := []]> (arrays s))).
Proof.
  induction l as [|v l IH]; intros fuel s a Ha Hf;
    (destruct fuel as [|fuel]; [lia|]); cbn [fromList_rec rev isArray negb].
  - unfold bind, array_length. rewrite Ha. cbn.
    rewrite list_insert_id by done. now destruct s.
  - unfold bind at 1. unfold array_length. rewrite Ha. cbn [length Nat.eqb].
    unfold bind at 1. unfold shift. rewrite Ha.
    rewrite insert_all_app. unfold bind.
    rewrite (IH fuel _ a); cbn [nodes arrays].
    + rewrite list_insert_insert_eq.
      destruct (insert_all VNull (rev l) _); try done.
      now rewrite insert_all_one.
    + apply list_lookup_insert_eq. eapply lookup_lt_Some; eauto.
    + cbn in Hf. lia.
Qed.

Lemma fromList_right_fold s a l :
  arrays s !! a = Some l ->
  fromList (Array a) s =
  insert_all VNull (rev l) (mkStore (nodes s) (<[a := []]> (arrays s))).
Proof.
  intros Ha. unfold fromList. rewrite Ha.
  apply fromList_rec_right_fold; [done|lia].
Qed.

Lemma merge_sort_perm (l1 l2 : list Z) :
  l1 ≡ₚ l2 -> merge_sort Z.le l1 = merge_sort Z.le l2.
Proof.
  intros Hp. apply (Sorted_unique Z.le).
  - apply Sorted_merge_sort. apply _.
  - apply Sorted_merge_sort. apply _.
  - now rewrite !merge_sort_Permutation.
Qed.

(** C3. For every finite sequence X of numeric keys,
    toList(fromList(X)) is X sorted in ascending order; for the empty
    sequence [fromList] gives the empty tree and [toList] the empty
    sequence. *)
Theorem fromList_toList_sorted (s : store) (a : loc) (ks : list Z) :
  arrays s !! a = Some (map VNum ks) ->
  (exists T s' l,
     fromList (Array a) s = Ret T s' /\
     toList T s' = Ret (map VNum l) s' /\
     StronglySorted Z.le l /\ l ≡ₚ ks /\ l = merge_sort Z.le ks) /\
  (ks = [] ->
     fromList (Array a) s = Ret VNull s /\ toList VNull s = Ret [] s).
Proof.
  intros Ha. split.
  - rewrite (fromList_right_fold s a _ Ha), <- map_rev.
    destruct (insert_all_sorted (rev ks)
                (mkStore (nodes s) (<[a := []]> (arrays s)))) as
      (T & s' & t & Hall & Ht & Hs & Hp & Hk & _).
    assert (Hrev : rev ks ≡ₚ ks) by (symmetry; apply Permutation_rev).
    exists T, s', (keys t). split_and!; try done.
    + now apply toList_spec.
    + now rewrite Hp.
    + now rewrite Hk, (merge_sort_perm (rev ks) ks).
  - intros ->. rewrite (fromList_right_fold s a _ Ha). cbn.
    rewrite list_insert_id by done. now destruct s.
Qed.

Lemma fromList_toList_sorted_witness :
  (exists T s' l,
     fromList (Array 0) (mkStore [] [map VNum [3; 1; 2]]) = Ret T s' /\
     toList T s' = Ret (map VNum l) s' /\
     StronglySorted Z.le l /\ l ≡ₚ [3; 1; 2] /\ l = merge_sort Z.le [3; 1; 2]) /\
  ([3; 1; 2] = [] ->
     fromList (Array 0) (mkStore [] [map VNum [3; 1; 2]]) =
       Ret VNull (mkStore [] [map VNum [3; 1; 2]]) /\
     toList VNull (mkStore [] [map VNum [3; 1; 2]]) =
       Ret [] (mkStore [] [map VNum [3; 1; 2]])).
Proof.
  exact (fromList_toList_sorted (mkStore [] [map VNum [3; 1; 2]]) 0%nat
           [3; 1; 2] eq_refl).
Defined.

(** C10. [fromList] consumes its argument: when it is over, normally or
    with the TypeError of a non-numeric element, the array it received is
    empty; on an array of numbers it ends normally. *)
Theorem fromList_empties_array (s : store) (a : loc) (l : list val) :
  arrays s !! a = Some l ->
  (exists s', arrays s' !! a = Some [] /\
     ((exists T, fromList (Array a) s = Ret T s') \/
      fromList (Array a) s = Throw TypeError s')) /\
  (forall ks, l = map VNum ks ->
     exists T s', fromList (Array a) s = Ret T s' /\ arrays s' !! a = Some []).
Proof.
  intros Ha.
  assert (Hemp : <[a := []]> (arrays s) !! a = Some []).
  { apply list_lookup_insert_eq. eapply lookup_lt_Some; eauto. }
  rewrite (fromList_right_fold s a l Ha). split.
  - destruct (insert_all_outcome (rev l) _ VNull Leaf
                (links_at_null (mkStore (nodes s) (<[a := []]> (arrays s))))) as
      (s' & Harr & Hout).
    exists s'. split; [|done]. now rewrite Harr.
  - intros ks ->. rewrite <- map_rev.
    destruct (insert_all_sorted (rev ks)
                (mkStore (nodes s) (<[a := []]> (arrays s)))) as
      (T & s' & t & Hall & _ & _ & _ & _ & Harr).
    exists T, s'. split; [done|]. now rewrite Harr.
Qed.

Lemma fromList_empties_array_witness :
  (exists s', arrays s' !! 0%nat = Some [] /\
     ((exists T, fromList (Array 0) (mkStore [] [map VNum [3; 1; 2]]) = Ret T s') \/
      fromList (Array 0) (mkStore [] [map VNum [3; 1; 2]]) = Throw TypeError s')) /\
  (forall ks, map VNum [3; 1; 2] = map VNum ks ->
     exists T s',
       fromList (Array 0) (mkStore [] [map VNum [3; 1; 2]]) = Ret T s' /\
       arrays s' !! 0%nat = Some []).
Proof.
  exact (fromList_empties_array (mkStore [] [map VNum [3; 1; 2]]) 0%nat
           (map VNum [3; 1; 2]) eq_refl).
Defined.

(** ** lookup and search *)

Lemma lookup_rec_spec x t : forall fuel s T,
  rep (nodes s) T t -> (height t < fuel)%nat ->
  lookup_rec fuel T x s = Ret (find t x) s.
Proof.
  induction t as [|l IHl b k r IHr]; intros fuel s T Hr Hf;
    (destruct fuel as [|fuel]; [lia|]); cbn in Hr.
  - subst T. reflexivity.
  - destruct Hr as (-> & nd & Hnd & Hk & Hl & Hrr). cbn in Hf.
    cbn [lookup_rec truthy negb find].
    read_field Hnd. rewrite Hk.
    destruct (js_seq (VNum k) x); [reflexivity|].
    read_field Hnd. rewrite Hk.
    destruct (js_lt x (VNum k)).
    + read_field Hnd. apply IHl; [done|lia].
    + read_field Hnd. apply IHr; [done|lia].
Qed.

Lemma search_loop_spec x t : forall fuel s T,
  rep (nodes s) T t -> (height t < fuel)%nat ->
  search_loop fuel T x s = Ret (find t x) s.
Proof.
  induction t as [|l IHl b k r IHr]; intros fuel s T Hr Hf; cbn in Hr.
  - subst T. now destruct fuel.
  - destruct Hr as (-> & nd & Hnd & Hk & Hl & Hrr). cbn in Hf.
    destruct fuel as [|fuel]; [lia|].
    cbn [search_loop truthy find].
    read_field Hnd. rewrite Hk.
    destruct (js_seq (VNum k) x); [reflexivity|]. cbn [negb].
    read_field Hnd. rewrite Hk.
    destruct (js_lt x (VNum k)).
    + read_field Hnd. apply IHl; [done|lia].
    + read_field Hnd. apply IHr; [done|lia].
Qed.

Lemma js_seq_eq a b : js_seq a b = true -> a = b.
Proof.
  unfold js_seq. destruct a, b; try done; intros H; exact (bool_decide_eq_true_1 _ H).
Qed.

Lemma js_seq_ne a b : a <> b -> js_seq a b = false.
Proof.
  intros H. unfold js_seq. destruct a, b; try done; now apply bool_decide_eq_false_2.
Qed.

Lemma js_seq_refl a : a <> VNaN -> js_seq a a = true.
Proof.
  intros H. unfold js_seq. destruct a; try done; now apply bool_decide_eq_true_2.
Qed.

Lemma rep_not_NaN h v t : rep h v t -> v <> VNaN.
Proof. destruct t; cbn; [now intros ->|now intros [-> _]]. Qed.

(** The descent stops at [null] or at a node of the tree whose key is
    the value looked for. *)
Lemma find_result h T t x :
  rep h T t ->
  find t x = VNull \/
  exists a nd, find t x = VNode a /\ a ∈ locs t /\ h !! a = Some nd /\ key nd = x.
Proof.
  revert T. induction t as [|l IHl b k r IHr]; intros T Hr; cbn in Hr; [now left|].
  destruct Hr as (-> & nd & Hnd & Hk & Hl & Hrr). cbn [find locs].
  destruct (js_seq (VNum k) x) eqn:Heq.
  - apply js_seq_eq in Heq. right. exists b, nd. split_and!; try done; [|congruence].
    apply elem_of_app. right. apply elem_of_cons. now left.
  - destruct (js_lt x (VNum k)).
    + destruct (IHl _ Hl) as [?|(a & nd' & ? & ? & ? & ?)]; [now left|].
      right. exists a, nd'. split_and!; try done. apply elem_of_app. now left.
    + destruct (IHr _ Hrr) as [?|(a & nd' & ? & ? & ? & ?)]; [now left|].
      right. exists a, nd'. split_and!; try done.
      apply elem_of_app. right. apply elem_of_cons. now right.
Qed.

(** In a tree built by [insert] the descent finds a key exactly when it
    is in the tree. *)
Lemma find_absent t k : ordered t -> find t (VNum k) = VNull <-> k ∉ keys t.
Proof.
  induction t as [|l IHl b k' r IHr]; cbn [ordered find keys].
  - intros _. split; [intros _ H; inversion H|done].
  - intros (Hl & Hr & Hol & Hor).
    rewrite Forall_forall in Hl, Hr.
    unfold js_seq, js_lt. cbn [to_number]. case_bool_decide as Heq.
    + injection Heq as ->. split; [done|]. intros Hn. exfalso. apply Hn.
      apply elem_of_app. right. apply elem_of_cons. now left.
    + assert (k <> k') by congruence.
      destruct (k <? k') eqn:Hlt.
      * rewrite (IHl Hol). apply Z.ltb_lt in Hlt.
        rewrite elem_of_app, elem_of_cons. split.
        -- intros Hn [?|[?|Hin]]; [done|done|]. apply Hr in Hin. lia.
        -- intros Hn ?. apply Hn. now left.
      * rewrite (IHr Hor). apply Z.ltb_ge in Hlt.
        rewrite elem_of_app, elem_of_cons. split.
        -- intros Hn [Hin|[?|?]]; [|done|done]. apply Hl in Hin. lia.
        -- intros Hn ?. apply Hn. right. now right.
Qed.

(** C7. On every tree and for every value the recursive [lookup] and the
    iterative [search] return the same result: [null], or the node of the
    tree the descent reaches whose key is the value; in a tree built by
    [insert] the result is [null] exactly when the number looked for is not
    a key of the tree; [lookup] on the empty tree returns [null]. *)
Theorem lookup_search_agree (s : store) (T : val) (t : tree) (x : val) :
  tree_at s T t ->
  (exists r,
     BST.lookup T x s = Ret r s /\ search T x s = Ret r s /\
     (r = VNull \/
      exists a nd, r = VNode a /\ a ∈ locs t /\
                   nodes s !! a = Some nd /\ key nd = x) /\
     (forall k, ordered t -> x = VNum k -> r = VNull <-> k ∉ keys t)) /\
  BST.lookup VNull x s = Ret VNull s.
Proof.
  intros Ht. pose proof (height_lt_fuel _ _ _ Ht) as Hf. destruct Ht as [Hr _].
  split; [|reflexivity].
  exists (find t x). split_and!.
  - unfold BST.lookup, with_fuel. now apply lookup_rec_spec.
  - unfold search, with_fuel. now apply search_loop_spec.
  - eapply find_result; eauto.
  - intros k Ho ->. now apply find_absent.
Qed.

(** ** min and max *)

Lemma min_rec_spec t : forall d fuel s T,
  rep (nodes s) T t -> t <> Leaf -> (height t < fuel)%nat ->
  min_rec fuel T s = Ret (VNum (leftmost t d)) s.
Proof.
  induction t as [|l IHl b k r _]; intros d fuel s T Hr Hne Hf; [done|].
  destruct fuel as [|fuel]; [lia|]. cbn in Hr, Hf.
  destruct Hr as (-> & nd & Hnd & Hk & Hl & Hrr).
  cbn [min_rec truthy negb leftmost].
  read_field Hnd.
  destruct l as [|ll lb lk lr].
  - cbn in Hl. rewrite Hl. cbn [truthy negb leftmost].
    rewrite (getf_node _ _ _ _ Hnd). cbn. now rewrite Hk.
  - pose proof Hl as Hl'. cbn in Hl'. destruct Hl' as (Hv & _).
    assert (Htr : truthy (left nd) = true) by now rewrite Hv.
    rewrite Htr. cbn [negb].
    read_field Hnd. apply IHl; [done|done|lia].
Qed.

Lemma min_spec s T t d :
  tree_at s T t -> t <> Leaf -> BST.min T s = Ret (VNum (leftmost t d)) s.
Proof.
  intros Ht Hne. unfold BST.min, with_fuel.
  apply min_rec_spec; [apply Ht|done|eapply height_lt_fuel; eauto].
Qed.

Lemma keys_leftmost t d :
  t <> Leaf -> exists rest, keys t = leftmost t d :: rest.
Proof.
  revert d. induction t as [|l IHl b k r _]; intros d Hne; [done|].
  cbn. destruct l as [|ll lb lk lr].
  - cbn. eauto.
  - destruct (IHl k) as (rest & ->); [done|]. cbn. eauto.
Qed.

(** ** The invariant and the in-order sequence *)

Lemma bst_sorted t : bst t -> StronglySorted Z.lt (keys t).
Proof.
  induction t as [|l IHl b k r IHr]; cbn; [constructor|].
  intros (Hl & Hr & Hol & Hor).
  specialize (IHl Hol). specialize (IHr Hor).
  clear Hol Hor. induction IHl as [|y ys Hys IH Hall].
  - cbn. now constructor.
  - cbn. apply Forall_cons in Hl as [Hy Hl].
    constructor; [auto|].
    apply Forall_app. split; [done|].
    constructor; [lia|]. eapply Forall_impl; [exact Hr|]. cbn. lia.
Qed.

Lemma sorted_app_inv (l : list Z) k r :
  StronglySorted Z.lt (l ++ k :: r) ->
  StronglySorted Z.lt l /\ StronglySorted Z.lt r /\
  Forall (fun x => x < k) l /\ Forall (fun x => k < x) r.
Proof.
  induction l as [|y l IH]; cbn; intros Hs.
  - apply StronglySorted_inv in Hs as [Hs Hall]. split_and!; try done; constructor.
  - apply StronglySorted_inv in Hs as [Hs Hall].
    destruct (IH Hs) as (Hl & Hr & Hlk & Hkr).
    apply Forall_app in Hall as [Hyl Hyk].
    apply Forall_cons in Hyk as [Hyk _].
    split_and!; try done; now constructor.
Qed.

Lemma sorted_bst t : StronglySorted Z.lt (keys t) -> bst t.
Proof.
  induction t as [|l IHl b k r IHr]; cbn; [done|].
  intros Hs. apply sorted_app_inv in Hs as (Hl & Hr & Hlk & Hkr). auto.
Qed.

Lemma sorted_filter (P : Z -> Prop) `{!forall x, Decision (P x)} (l : list Z) :
  StronglySorted Z.lt l -> StronglySorted Z.lt (filter P l).
Proof.
  induction 1 as [|y l Hs IH Hall]; [constructor|].
  rewrite filter_cons. destruct (decide (P y)); [|done].
  constructor; [done|]. rewrite Forall_forall in Hall |- *.
  intros z Hz. apply list_elem_of_filter in Hz as [_ Hz]. auto.
Qed.

Lemma filter_ne_id (x : Z) (l : list Z) :
  Forall (fun y => y <> x) l -> filter (fun y => y <> x) l = l.
Proof.
  induction 1 as [|y l Hy Hall IH]; [done|].
  rewrite filter_cons_True by done. now rewrite IH.
Qed.

Lemma filter_ne_absent (x : Z) (l : list Z) :
  x ∉ l -> filter (fun y => y <> x) l = l.
Proof.
  intros Hx. apply filter_ne_id, Forall_forall. intros y Hy ->. done.
Qed.

Lemma filter_ne_present (x : Z) (l : list Z) :
  StronglySorted Z.lt l -> x ∈ l ->
  S (length (filter (fun y => y <> x) l)) = length l.
Proof.
  induction 1 as [|y l Hs IH Hall]; intros Hx; [inversion Hx|].
  apply elem_of_cons in Hx as [->|Hx].
  - rewrite filter_cons_False by (intros ?; done).
    rewrite filter_ne_id; [done|].
    eapply Forall_impl; [exact Hall|]. cbn. lia.
  - rewrite Forall_forall in Hall. pose proof (Hall _ Hx).
    rewrite filter_cons_True by lia. cbn. now rewrite IH.
Qed.

(** A child read from a node of a tree is [null] or a node, which the
    constructor keeps as it is. *)
Lemma rep_truthy_id h v t : rep h v t -> (if truthy v then v else VNull) = v.
Proof. destruct t; cbn; [intros ->|intros [-> _]]; done. Qed.

(** ** deleteValue *)

(** What [new Node(k, vl, vr)] builds over two disjoint trees. *)
Lemma Node_tree s k vl vr tl tr :
  tree_at s vl tl -> tree_at s vr tr ->
  (forall a, a ∈ locs tl -> a ∉ locs tr) ->
  let a' := length (nodes s) in
  let s' := mkStore (nodes s ++ [mkNode (VNum k) vl vr VNull]) (arrays s) in
  Node (VNum k) vl vr s = Ret (VNode a') s' /\
  tree_at s' (VNode a') (Bin tl a' k tr).
Proof.
  intros [Hl Hndl] [Hr Hndr] Hdisj a' s'. split.
  - rewrite Node_number.
    now rewrite (rep_truthy_id _ _ _ Hl), (rep_truthy_id _ _ _ Hr).
  - assert (Hal : a' ∉ locs tl).
    { intros Hin. apply (rep_lookup _ _ _ _ Hl) in Hin. unfold a' in Hin. lia. }
    assert (Har : a' ∉ locs tr).
    { intros Hin. apply (rep_lookup _ _ _ _ Hr) in Hin. unfold a' in Hin. lia. }
    split.
    + cbn. split; [done|]. eexists. split.
      { unfold a'. rewrite lookup_app_r by lia. now rewrite Nat.sub_diag. }
      cbn. split_and!; [done|now apply rep_app|now apply rep_app].
    + cbn. apply NoDup_app. split_and!; [done| |now apply NoDup_cons].
      intros a Ha Hin. apply elem_of_cons in Hin as [->|Hin]; [done|].
      now apply (Hdisj a).
Qed.

Lemma tree_at_children s b l k r :
  tree_at s (VNode b) (Bin l b k r) ->
  exists nd, nodes s !! b = Some nd /\ key nd = VNum k /\
    tree_at s (left nd) l /\ tree_at s (right nd) r /\
    (forall a, a ∈ locs l -> a ∉ locs r) /\ (b ∉ locs l) /\ (b ∉ locs r).
Proof.
  intros [(_ & nd & Hnd & Hk & Hl & Hr) Hdup]. cbn in Hdup.
  apply NoDup_app in Hdup as (Hndl & Hlr & Hndr).
  apply NoDup_cons in Hndr as (Hbr & Hndr).
  exists nd. split_and!; try done.
  - intros a Ha Hin. apply (Hlr a Ha). apply elem_of_cons. now right.
  - intros Hin. apply (Hlr b Hin). apply elem_of_cons. now left.
Qed.

Lemma tree_at_app s new T t :
  tree_at s T t -> tree_at (mkStore (nodes s ++ new) (arrays s)) T t.
Proof. intros [Hr Hnd]. split; [now apply rep_app|done]. Qed.

Lemma store_app_nil s : mkStore (nodes s ++ []) (arrays s) = s.
Proof. rewrite app_nil_r. now destruct s. Qed.

Lemma js_lt_num x k : js_lt (VNum x) (VNum k) = (x <? k).
Proof. reflexivity. Qed.

Lemma js_seq_num x k : js_seq (VNum x) (VNum k) = bool_decide (x = k).
Proof.
  unfold js_seq. apply bool_decide_ext. split; [now intros [= ->]|now intros ->].
Qed.

(** [deleteValue] only allocates: the store grows by the nodes of the
    rebuilt path, and the result is a tree of the new store whose in-order
    sequence is the old one without [x]. *)
Lemma deleteValue_rec_spec t : forall x fuel s T,
  tree_at s T t -> bst t -> (height t < fuel)%nat ->
  exists T' new t',
    deleteValue_rec fuel T (VNum x) s =
      Ret T' (mkStore (nodes s ++ new) (arrays s)) /\
    tree_at (mkStore (nodes s ++ new) (arrays s)) T' t' /\
    (forall a, a ∈ locs t' -> a ∈ locs t \/ (length (nodes s) <= a)%nat) /\
    keys t' = filter (fun y => y <> x) (keys t).
Proof.
  induction t as [|l IHl b k r IHr]; intros x fuel s T Ht Hb Hf;
    (destruct fuel as [|fuel]; [lia|]).
  - destruct Ht as [Hr _]. cbn in Hr. subst T.
    exists VNull, [], Leaf. rewrite store_app_nil.
    split_and!; try done; [apply tree_at_null|now left].
  - pose proof Ht as [(-> & _) _].
    destruct (tree_at_children _ _ _ _ _ Ht) as
      (nd & Hnd & Hk & Htl & Htr & Hdisj & Hbl & Hbr).
    cbn in Hb, Hf. destruct Hb as (Hlk & Hkr & Hbl' & Hbr').
    assert (Hnd_app : forall new,
      nodes (mkStore (nodes s ++ new) (arrays s)) !! b = Some nd).
    { intros new. cbn. rewrite lookup_app_l; [done|]. eapply lookup_lt_Some; eauto. }
    cbn [deleteValue_rec truthy negb].
    read_field Hnd. rewrite Hk, js_lt_num.
    destruct (x <? k) eqn:Hlt.
    { (* the key is on the left *)
      apply Z.ltb_lt in Hlt.
      destruct (IHl x fuel s (left nd) Htl Hbl') as
        (Tl & new & l' & Hdel & Htl' & Hlocs & Hkeys); [lia|].
      read_field Hnd. read_field Hnd.
      erewrite bind_Ret by exact Hdel.
      read_field (Hnd_app new).
      destruct (Node_tree _ k Tl (right nd) l' r Htl' (tree_at_app _ new _ _ Htr))
        as [HN HNt].
      { intros a Ha Hin. destruct (Hlocs a Ha) as [Hal|Hal].
        - now apply (Hdisj a).
        - destruct Htr as [Hrr _]. apply (rep_lookup _ _ _ _ Hrr) in Hin. lia. }
      rewrite Hk, HN. cbn [nodes arrays] in HNt |- *.
      rewrite <- app_assoc in HNt |- *.
      eexists _, _, _. split; [reflexivity|]. split; [exact HNt|]. split.
      - cbn [locs]. intros a Ha.
        apply elem_of_app in Ha as [Ha|Ha].
        + destruct (Hlocs a Ha); [left|right; done]. apply elem_of_app. now left.
        + apply elem_of_cons in Ha as [->|Ha].
          * right. rewrite length_app. lia.
          * left. apply elem_of_app. right. apply elem_of_cons. now right.
      - cbn [keys]. rewrite Hkeys, filter_app, filter_cons_True by lia.
        rewrite (filter_ne_id x (keys r)); [done|].
        eapply Forall_impl; [exact Hkr|]. cbn. lia. }
    read_field Hnd. rewrite Hk. unfold js_gt. rewrite js_lt_num.
    apply Z.ltb_ge in Hlt.
    destruct (k <? x) eqn:Hgt.
    { (* the key is on the right *)
      apply Z.ltb_lt in Hgt.
      destruct (IHr x fuel s (right nd) Htr Hbr') as
        (Tr & new & r' & Hdel & Htr' & Hlocs & Hkeys); [lia|].
      read_field Hnd. read_field Hnd. read_field Hnd.
      erewrite bind_Ret by exact Hdel.
      destruct (Node_tree _ k (left nd) Tr l r' (tree_at_app _ new _ _ Htl) Htr')
        as [HN HNt].
      { intros a Ha Hin. destruct (Hlocs a Hin) as [Hal|Hal].
        - now apply (Hdisj a).
        - destruct Htl as [Hll _]. apply (rep_lookup _ _ _ _ Hll) in Ha. lia. }
      rewrite Hk, HN. cbn [nodes arrays] in HNt |- *.
      rewrite <- app_assoc in HNt |- *.
      eexists _, _, _. split; [reflexivity|]. split; [exact HNt|]. split.
      - cbn [locs]. intros a Ha.
        apply elem_of_app in Ha as [Ha|Ha].
        + left. apply elem_of_app. now left.
        + apply elem_of_cons in Ha as [->|Ha].
          * right. rewrite length_app. lia.
          * destruct (Hlocs a Ha); [left|right; done].
            apply elem_of_app. right. apply elem_of_cons. now right.
      - cbn [keys]. rewrite Hkeys, filter_app, filter_cons_True by lia.
        rewrite (filter_ne_id x (keys l)); [done|].
        eapply Forall_impl; [exact Hlk|]. cbn. lia. }
    (* the key is at the root *)
    apply Z.ltb_ge in Hgt. assert (x = k) as -> by lia.
    assert (Hkeys0 : filter (fun y => y <> k) (keys (Bin l b k r)) = keys l ++ keys r).
    { cbn [keys]. rewrite filter_app, filter_cons_False by (intros ?; done).
      rewrite !filter_ne_id; [done| |].
      - eapply Forall_impl; [exact Hkr|]. cbn. lia.
      - eapply Forall_impl; [exact Hlk|]. cbn. lia. }
    rewrite Hkeys0.
    read_field Hnd. rewrite Hk, js_seq_num, bool_decide_eq_true_2 by done.
    erewrite (bind_Ret _ _ s (negb (truthy (left nd))) s)
      by (read_field Hnd; reflexivity).
    destruct l as [|ll lb lk lr].
    { (* no left child: the right subtree *)
      destruct Htl as [Hrl _]. cbn in Hrl. rewrite Hrl. cbn [truthy negb].
      rewrite (getf_node _ _ _ _ Hnd). cbn [proj].
      exists (right nd), [], r. rewrite store_app_nil.
      split_and!; try done.
      intros a Ha. left. cbn. apply elem_of_cons. now right. }
    pose proof Htl as [(Hvl & _) _].
    assert (Htrl : truthy (left nd) = true) by now rewrite Hvl.
    rewrite Htrl. cbn [negb].
    read_field Hnd. rewrite Hk, js_seq_num, bool_decide_eq_true_2 by done.
    erewrite (bind_Ret _ _ s (negb (truthy (right nd))) s)
      by (read_field Hnd; reflexivity).
    destruct r as [|rl rb rk rr].
    { (* no right child: the left subtree *)
      destruct Htr as [Hrr _]. cbn in Hrr. rewrite Hrr. cbn [truthy negb].
      rewrite (getf_node _ _ _ _ Hnd). cbn [proj].
      exists (left nd), [], (Bin ll lb lk lr). rewrite store_app_nil.
      split_and!; try done.
      - intros a Ha. left. cbn [locs]. apply elem_of_app. now left.
      - cbn [keys]. now rewrite app_nil_r. }
    (* two children: the minimum of the right subtree moves up *)
    pose proof Htr as [(Hvr & _) _].
    assert (Htrr : truthy (right nd) = true) by now rewrite Hvr.
    rewrite Htrr. cbn [negb].
    set (r := Bin rl rb rk rr) in *.
    set (y := leftmost r k).
    assert (Hmin : BST.min (right nd) s = Ret (VNum y) s) by now apply min_spec.
    read_field Hnd. erewrite bind_Ret by exact Hmin.
    read_field Hnd. read_field Hnd. read_field Hnd.
    erewrite bind_Ret by exact Hmin.
    destruct (IHr y fuel s (right nd) Htr Hbr') as
      (Tr & new & r' & Hdel & Htr' & Hlocs & Hkeys); [lia|].
    erewrite bind_Ret by exact Hdel.
    destruct (Node_tree _ y (left nd) Tr _ r' (tree_at_app _ new _ _ Htl) Htr')
      as [HN HNt].
    { intros a Ha Hin. destruct (Hlocs a Hin) as [Hal|Hal].
      - now apply (Hdisj a).
      - destruct Htl as [Hll _]. apply (rep_lookup _ _ _ _ Hll) in Ha. lia. }
    rewrite HN. cbn [nodes arrays] in HNt |- *.
    rewrite <- app_assoc in HNt |- *.
    eexists _, _, _. split; [reflexivity|]. split; [exact HNt|]. split.
    + intros a Ha. change (a ∈ locs (Bin ll lb lk lr) ++ length (nodes s ++ new) :: locs r') in Ha.
      apply elem_of_app in Ha as [Ha|Ha].
      * left. apply elem_of_app. now left.
      * apply elem_of_cons in Ha as [->|Ha].
        -- right. rewrite length_app. lia.
        -- destruct (Hlocs a Ha); [left|right; done].
           apply elem_of_app. right. apply elem_of_cons. now right.
    + change (keys (Bin ll lb lk lr) ++ y :: keys r' =
              keys (Bin ll lb lk lr) ++ keys r).
      f_equal. rewrite Hkeys.
      destruct (keys_leftmost r k) as (rest & Hrest); [done|]. fold y in Hrest.
      rewrite Hrest. rewrite filter_cons_False by (intros ?; done).
      rewrite filter_ne_id; [done|].
      pose proof (bst_sorted r Hbr') as Hs. rewrite Hrest in Hs.
      apply StronglySorted_inv in Hs as [_ Hall].
      eapply Forall_impl; [exact Hall|]. cbn. lia.
Qed.

(** ** The tree of Figure 1.2 *)

Lemma example_tree_at : tree_at example_store (VNode 0) example_shape.
Proof.
  split.
  - cbn. repeat (first [done | split | eexists]).
  - apply NoDup_ListNoDup. cbn. repeat constructor; cbn; lia.
Defined.

Lemma example_bst : bst example_shape.
Proof. cbn. repeat (first [done | split | constructor]). Defined.

(** C4. On a tree that satisfies the invariant, [deleteValue] returns a
    tree that satisfies it again; with a key of the tree the result has
    exactly one node fewer, with any other key no error is raised and the
    in-order sequence is the one of the tree given. *)
Theorem deleteValue_preserves_bst (s : store) (T : val) (t : tree) (k : Z) :
  tree_at s T t -> bst t ->
  exists T' s' t',
    deleteValue T (VNum k) s = Ret T' s' /\
    tree_at s' T' t' /\ bst t' /\
    toList T' s' = Ret (map VNum (filter (fun y => y <> k) (keys t))) s' /\
    (k ∈ keys t -> S (size t') = size t) /\
    (k ∉ keys t ->
       toList T s = Ret (map VNum (keys t)) s /\
       toList T' s' = Ret (map VNum (keys t)) s').
Proof.
  intros Ht Hb.
  destruct (deleteValue_rec_spec t k (S (length (nodes s))) s T Ht Hb) as
    (T' & new & t' & Hdel & Ht' & _ & Hkeys).
  { eapply height_lt_fuel; eauto. }
  exists T', (mkStore (nodes s ++ new) (arrays s)), t'.
  pose proof (bst_sorted t Hb) as Hs.
  split_and!; try done.
  - apply sorted_bst. rewrite Hkeys. now apply sorted_filter.
  - rewrite (toList_spec _ _ _ Ht'). now rewrite Hkeys.
  - intros Hin. unfold size. rewrite !length_locs_keys, Hkeys.
    now apply filter_ne_present.
  - intros Hout. split; [now apply toList_spec|].
    rewrite (toList_spec _ _ _ Ht'), Hkeys. now rewrite filter_ne_absent.
Qed.

Lemma deleteValue_preserves_bst_witness :
  exists T' s' t',
    deleteValue (VNode 0) (VNum 8) example_store = Ret T' s' /\
    tree_at s' T' t' /\ bst t' /\
    toList T' s' =
      Ret (map VNum (filter (fun y => y <> 8) (keys example_shape))) s' /\
    (8 ∈ keys example_shape -> S (size t') = size example_shape) /\
    (8 ∉ keys example_shape ->
       toList (VNode 0) example_store =
         Ret (map VNum (keys example_shape)) example_store /\
       toList T' s' = Ret (map VNum (keys example_shape)) s').
Proof.
  exact (deleteValue_preserves_bst example_store (VNode 0) example_shape 8
           example_tree_at example_bst).
Defined.

Lemma lookup_search_agree_witness :
  (exists r,
     BST.lookup (VNode 0) (VNum 8) example_store = Ret r example_store /\
     search (VNode 0) (VNum 8) example_store = Ret r example_store /\
     (r = VNull \/
      exists a nd, r = VNode a /\ a ∈ locs example_shape /\
                   nodes example_store !! a = Some nd /\ key nd = VNum 8) /\
     (forall k, ordered example_shape -> VNum 8 = VNum k ->
                r = VNull <-> k ∉ keys example_shape)) /\
  BST.lookup VNull (VNum 8) example_store = Ret VNull example_store.
Proof.
  exact (lookup_search_agree example_store (VNode 0) example_shape (VNum 8)
           example_tree_at).
Defined.

(** The orderable values are the numbers other than [NaN]. *)
Lemma orderable_iff v : orderable v <-> exists n, v = VNum n.
Proof.
  split.
  - intros H. destruct v as [| |b|n| |a]; [| | |now exists n| |].
    + destruct (H 0) as [?|[?|?]]; done.
    + destruct (H 0) as [?|[?|?]]; done.
    + destruct (H (if b then 1 else 0)) as [?|[?|?]]; destruct b; done.
    + destruct (H 0) as [?|[?|?]]; done.
    + destruct (H 0) as [?|[?|?]]; done.
  - intros [m ->] n. unfold js_lt. cbn [to_number]. rewrite js_seq_num.
    destruct (Z.lt_trichotomy m n) as [?|[?|?]].
    + left. now apply Z.ltb_lt.
    + right. left. now apply bool_decide_eq_true_2.
    + right. right. now apply Z.ltb_lt.
Qed.

(** C9, as the specification states it, fails: [NaN] is not orderable, it
    compares with no number, and [new Node(NaN)] returns a node object
    that holds it, as [insert(null, NaN)] does. *)
Lemma Node_accepts_NaN :
  ~ orderable VNaN /\
  Node VNaN VUndef VUndef empty_store =
    Ret (VNode 0) (mkStore [mkNode VNaN VNull VNull VNull] []) /\
  insert VNull VNaN empty_store =
    Ret (VNode 0) (mkStore [mkNode VNaN VNull VNull VNull] []) /\
  ~ (forall (k l r : val) (s : store),
       ~ orderable k -> exists s', Node k l r s = Throw TypeError s').
Proof.
  assert (Hn : ~ orderable VNaN).
  { intros H. destruct (H 0) as [?|[?|?]]; done. }
  split_and!; [done|reflexivity|reflexivity|].
  intros H. destruct (H VNaN VUndef VUndef empty_store Hn) as [s' Hs']. done.
Qed.

(** C9, amended. [new Node] tests the type of the key, not whether the
    key can be ordered. With a key that is not of type number, that is
    with [undefined], [null], a boolean or an object, it throws a
    TypeError and leaves the store as it was, and so does [insert], which
    constructs the node before it reads or writes the tree. With a key of
    type number, an orderable number or [NaN], it returns a new node
    object, appended to the store, that holds the key, the children that
    are truthy ([null] for the others) and no parent. *)
Theorem Node_checks_key (s : store) (l r T : val) (b : bool) (a : loc) (n : Z) :
  let made (k : val) :=
    Ret (VNode (length (nodes s)))
        (mkStore (nodes s ++ [mkNode k (if truthy l then l else VNull)
                                       (if truthy r then r else VNull) VNull])
                 (arrays s)) in
  (Node VUndef l r s = Throw TypeError s /\
   Node VNull l r s = Throw TypeError s /\
   Node (VBool b) l r s = Throw TypeError s /\
   Node (VNode a) l r s = Throw TypeError s) /\
  (insert T VUndef s = Throw TypeError s /\
   insert T VNull s = Throw TypeError s /\
   insert T (VBool b) s = Throw TypeError s /\
   insert T (VNode a) s = Throw TypeError s) /\
  (Node (VNum n) l r s = made (VNum n) /\
   Node VNaN l r s = made VNaN) /\
  (forall k, Node k l r s = made k \/ Node k l r s = Throw TypeError s).
Proof.
  cbn zeta. split_and!; try reflexivity.
  intros [| |b'|m| |a']; (left; reflexivity) || (right; reflexivity).
Qed.

(** ** min returns a key, its callers expect a node

    [deleteNode], [succ] and [pred] use the result of [min] and [max] as
    a node ([y.key], [y.parent], [y.right]), but those functions return
    [T.key], a number. *)

Lemma succ_right_child s a nd r d :
  nodes s !! a = Some nd -> tree_at s (right nd) r -> r <> Leaf ->
  succ (VNode a) s = Ret (VNum (leftmost r d)) s.
Proof.
  intros Hnd Hr Hne. unfold succ.
  assert (Htr : truthy (right nd) = true).
  { destruct r; [done|]. destruct Hr as [(-> & _) _]. done. }
  read_field Hnd. rewrite Htr. read_field Hnd. now apply min_spec.
Qed.

Lemma deleteNode_two_children s T a nd l r :
  nodes s !! a = Some nd ->
  tree_at s (left nd) l -> tree_at s (right nd) r ->
  l <> Leaf -> r <> Leaf ->
  deleteNode T (VNode a) s =
  Throw TypeError (mkStore (<[a := upd Key VUndef nd]> (nodes s)) (arrays s)).
Proof.
  intros Hnd Hl Hr Hnl Hnr. unfold deleteNode. cbn [truthy negb].
  assert (Htl : truthy (left nd) = true).
  { destruct l; [done|]. destruct Hl as [(-> & _) _]. done. }
  assert (Htr : truthy (right nd) = true).
  { destruct r; [done|]. destruct Hr as [(-> & _) _]. done. }
  read_field Hnd. read_field Hnd. rewrite Htl. cbn [negb].
  read_field Hnd. rewrite Htr. cbn [negb].
  read_field Hnd.
  erewrite bind_Ret by (apply (min_spec _ _ r 0); done).
  unfold bind, setf. cbn [getf]. now rewrite Hnd.
Qed.

(** C1 (the code departs from the claim). In the tree built from
    4, 3, 8, 1, 7, 16, 2, 10, 9, 14 the node with key 8 has two children;
    [deleteNode] on it reads the minimum of the right subtree as the number
    9, stores [undefined] as the key of the node and throws a TypeError
    instead of returning the tree with in-order sequence
    1, 2, 3, 4, 7, 9, 10, 14, 16. *)
Theorem deleteNode_two_children_throws :
  example_tree = Ret (VNode 0) example_store /\
  BST.lookup (VNode 0) (VNum 8) example_store = Ret (VNode 2) example_store /\
  BST.min (VNode 5) example_store = Ret (VNum 9) example_store /\
  exists s',
    deleteNode (VNode 0) (VNode 2) example_store = Throw TypeError s' /\
    getf Key (VNode 2) s' = Ret VUndef s' /\
    toList (VNode 0) s' =
      Ret [VNum 1; VNum 2; VNum 3; VNum 4; VNum 7; VUndef; VNum 9; VNum 10;
           VNum 14; VNum 16] s'.
Proof.
  split_and!; try reflexivity.
  exists (mkStore (<[2%nat := mkNode VUndef (VNode 4) (VNode 5) (VNode 0)]>
                     (nodes example_store))
                  (arrays example_store)).
  split_and!; reflexivity.
Qed.

(** C5 (the code departs from the claim). The node with key 8 has a right
    child, and [succ] returns the number 9, the key of the minimum of the
    right subtree, not the node that holds it; without a right child
    [succ] returns a node (the node with key 3 for the node with key 2) or
    [null] (for the node with key 16). *)
Theorem succ_returns_key :
  succ (VNode 2) example_store = Ret (VNum 9) example_store /\
  search (VNode 0) (VNum 9) example_store = Ret (VNode 8) example_store /\
  succ (VNode 6) example_store = Ret (VNode 1) example_store /\
  succ (VNode 5) example_store = Ret VNull example_store.
Proof. split_and!; reflexivity. Qed.

(** C6 (the code departs from the claim). The successor of the node with
    key 2 is the node with key 3, and [pred] of that node is the number 2,
    not the node; the successor of the node with key 8 is the number 9,
    and [pred] of it is [undefined]. The node with the largest key has no
    successor and the node with the smallest key no predecessor. *)
Theorem pred_succ_not_node :
  succ (VNode 6) example_store = Ret (VNode 1) example_store /\
  pred (VNode 1) example_store = Ret (VNum 2) example_store /\
  succ (VNode 2) example_store = Ret (VNum 9) example_store /\
  pred (VNum 9) example_store = Ret VUndef example_store /\
  succ (VNode 5) example_store = Ret VNull example_store /\
  pred (VNode 3) example_store = Ret VNull example_store.
Proof. split_and!; reflexivity. Qed.

(** C8 (the code departs from the claim). On the array 1, 2 [fromList]
    inserts 2 first and 1 after it: the root holds 2 and 1 is its left
    child, while inserting from left to right gives the root 1 with 2 as
    its right child. *)
Theorem fromList_inserts_last_first :
  exists T1 s1 T2 s2,
    fromList (Array 0) (mkStore [] [[VNum 1; VNum 2]]) = Ret T1 s1 /\
    rep (nodes s1) T1 (Bin (Bin Leaf 1 1 Leaf) 0 2 Leaf) /\
    insert_all VNull [VNum 1; VNum 2] (mkStore [] [[]]) = Ret T2 s2 /\
    rep (nodes s2) T2 (Bin Leaf 0 1 (Bin Leaf 1 2 Leaf)) /\
    arrays s1 = arrays s2.
Proof.
  eexists _, _, _, _. split_and!; try reflexivity.
  - cbn. repeat (first [done | split | eexists]).
  - cbn. repeat (first [done | split | eexists]).
Qed.

(** * Further properties of the module *)

(** ** insert keeps the parent links *)

(** Parent links only depend on the [parent] fields of the nodes named. *)
Lemma plinks_frame h h' p t :
  plinks h p t ->
  (forall a nd, a ∈ locs t -> h !! a = Some nd ->
     exists nd', h' !! a = Some nd' /\ parent nd' = parent nd) ->
  plinks h' p t.
Proof.
  revert p. induction t as [|l IHl b k r IHr]; cbn; intros p Hp Hsame; [done|].
  destruct Hp as ((nd & Hnd & Hpar) & Hl & Hr). split_and!.
  - destruct (Hsame b nd) as (nd' & Hnd' & Hpar'); [|done|].
    { apply elem_of_app. right. apply elem_of_cons. now left. }
    exists nd'. split; [done|congruence].
  - apply IHl; [done|]. intros a nda Ha. apply Hsame, elem_of_app. now left.
  - apply IHr; [done|]. intros a nda Ha. apply Hsame, elem_of_app. right.
    apply elem_of_cons. now right.
Qed.

Lemma plinks_ins h p t x k :
  plinks h p t ->
  (exists ndx, h !! x = Some ndx /\ parent ndx = ins_parent t k p) ->
  plinks h p (ins t x k).
Proof.
  revert p. induction t as [|l IHl b k' r IHr]; cbn; intros p Hp Hx.
  - done.
  - destruct Hp as (Hb & Hl & Hr).
    destruct (k <? k'); cbn; split_and!; auto.
Qed.

(** The store [insert] leaves: the new node is appended and then linked
    under the node the loop stopped at. *)
Lemma insert_run s T t k :
  tree_at s T t ->
  let x := length (nodes s) in
  let ndx := mkNode (VNum k) VNull VNull VNull in
  (t = Leaf /\
   insert T (VNum k) s = Ret (VNode x) (mkStore (nodes s ++ [ndx]) (arrays s))) \/
  (exists p ndp kp,
     t <> Leaf /\ ins_parent t k VNull = VNode p /\ p ∈ locs t /\
     nodes s !! p = Some ndp /\ key ndp = VNum kp /\
     insert T (VNum k) s =
       Ret T (mkStore
                (<[p := upd (if k <? kp then Left else Right) (VNode x) ndp]>
                   (<[x := upd Parent (VNode p) ndx]> (nodes s ++ [ndx])))
                (arrays s))).
Proof.
  intros Ht x ndx. pose proof (height_lt_fuel _ _ _ Ht) as Hfuel.
  destruct Ht as [Hr Hnd].
  set (s1 := mkStore (nodes s ++ [ndx]) (arrays s)).
  assert (Hx : x ∉ locs t).
  { intros Hin. apply (rep_lookup _ _ _ _ Hr) in Hin. unfold x in Hin. lia. }
  assert (Hxx : nodes s1 !! x = Some ndx).
  { cbn. unfold x. rewrite lookup_app_r by lia. now rewrite Nat.sub_diag. }
  assert (Hr1 : rep (nodes s1) T t) by (cbn; now apply rep_app).
  assert (Hloop : with_fuel (fun fuel => insert_loop fuel T (VNum k) VNull) s1 =
                  Ret (ins_parent t k VNull) s1).
  { unfold with_fuel. apply insert_loop_spec with (t := t); [exact Hr1|].
    cbn. rewrite length_app. cbn. lia. }
  assert (t = Leaf \/ t <> Leaf) as [->|Hne] by (destruct t; [left|right]; done).
  - left. split; [done|]. unfold insert.
    erewrite bind_Ret by apply Node_number. cbn [truthy]. fold ndx s1 x.
    erewrite bind_Ret by exact Hloop. cbn [ins_parent].
    erewrite bind_Ret by (apply setf_node; exact Hxx).
    unfold js_seq. rewrite bool_decide_eq_true_2 by done. unfold ret.
    f_equal. unfold s1. cbn [nodes arrays]. f_equal.
    apply list_insert_id. exact Hxx.
  - right.
    destruct (ins_rep k x t (nodes s1) T VNull Hr1 Hnd Hx Hne) as
      (p & ndp & kp & Hpar & Hpin & Hpl & Hpk & _).
    assert (Hpx : x <> p) by (intros ->; done).
    assert (Hps : nodes s !! p = Some ndp).
    { cbn in Hpl. rewrite lookup_app_l in Hpl; [done|]. eapply rep_lookup; eauto. }
    exists p, ndp, kp. split_and!; try done.
    unfold insert.
    erewrite bind_Ret by apply Node_number. cbn [truthy]. fold ndx s1 x.
    erewrite bind_Ret by exact Hloop. rewrite Hpar.
    erewrite bind_Ret by (apply setf_node; exact Hxx).
    unfold js_seq. rewrite bool_decide_eq_false_2 by done.
    erewrite bind_Ret; cycle 1.
    { apply getf_node. cbn [nodes]. rewrite list_lookup_insert_ne by done.
      exact Hpl. }
    cbn [proj]. rewrite Hpk, js_lt_num.
    destruct (k <? kp).
    + erewrite bind_Ret; cycle 1.
      { apply setf_node. cbn [nodes]. rewrite list_lookup_insert_ne by done.
        exact Hpl. }
      reflexivity.
    + erewrite bind_Ret; cycle 1.
      { apply setf_node. cbn [nodes]. rewrite list_lookup_insert_ne by done.
        exact Hpl. }
      reflexivity.
Qed.

(** [insert] on a tree with right parent links. *)
Lemma insert_links (s : store) (T : val) (t : tree) (k : Z) :
  linked s T t ->
  exists T' s',
    insert T (VNum k) s = Ret T' s' /\
    linked s' T' (ins t (length (nodes s)) k) /\
    T' = (if bool_decide (T = VNull) then VNode (length (nodes s)) else T) /\
    length (nodes s') = S (length (nodes s)) /\
    (forall b, (b < length (nodes s))%nat -> b ∉ locs t ->
               nodes s' !! b = nodes s !! b) /\
    arrays s' = arrays s.
Proof.
  intros [Ht Hp].
  destruct (insert_spec s T t k Ht) as (T' & s' & Hins & Ht' & Harr & Hlen).
  exists T', s'. split; [done|].
  pose proof Ht as [Hr Hnd].
  destruct (insert_run s T t k Ht) as
    [(-> & Hrun)|(p & ndp & kp & Hne & Hpar & Hpin & Hps & Hpk & Hrun)];
    rewrite Hrun in Hins; injection Hins as <- <-.
  - cbn in Hr. subst T. split_and!; try done.
    + split; [done|]. cbn. split_and!; try done.
      exists (mkNode (VNum k) VNull VNull VNull). split; [|reflexivity].
      rewrite lookup_app_r by lia. now rewrite Nat.sub_diag.
    + intros b Hb _. cbn. now rewrite lookup_app_l.
  - assert (Hpx : length (nodes s) <> p).
    { intros <-. apply lookup_lt_Some in Hps. lia. }
    assert (T <> VNull) by (destruct t; [done|]; destruct Hr as [-> _]; done).
    split_and!; try done.
    + split; [done|]. cbn [nodes]. apply plinks_ins.
      * eapply plinks_frame; [exact Hp|]. intros b nd Hb Hnb.
        assert (b <> length (nodes s)).
        { apply lookup_lt_Some in Hnb. lia. }
        destruct (decide (b = p)) as [->|Hbp].
        -- eexists. split.
           ++ apply list_lookup_insert_eq. rewrite length_insert, length_app.
              apply lookup_lt_Some in Hps. lia.
           ++ rewrite Hps in Hnb. injection Hnb as <-. now destruct (k <? kp).
        -- exists nd. split; [|done].
           rewrite !list_lookup_insert_ne by done.
           rewrite lookup_app_l; [done|]. eapply lookup_lt_Some; eauto.
      * eexists. split.
        -- rewrite list_lookup_insert_ne by done.
           apply list_lookup_insert_eq. rewrite length_app. cbn. lia.
        -- cbn. now rewrite Hpar.
    + now rewrite bool_decide_eq_false_2.
    + intros b Hb Hbt. cbn.
      rewrite !list_lookup_insert_ne; [now rewrite lookup_app_l|lia|].
      intros <-. done.
Qed.

(** X1. [insert] keeps the parent links: on a tree whose links are right it
    returns the same root (the new node when the tree was empty), the
    result is the tree with the key at the place the descent finds, every
    [parent] field refers to the node above it, exactly one node object is
    created and no node outside the tree is written. *)
Theorem insert_keeps_links (s : store) (T : val) (t : tree) (k : Z) :
  linked s T t ->
  exists T' s',
    insert T (VNum k) s = Ret T' s' /\
    linked s' T' (ins t (length (nodes s)) k) /\
    T' = (if bool_decide (T = VNull) then VNode (length (nodes s)) else T) /\
    length (nodes s') = S (length (nodes s)) /\
    (forall b, (b < length (nodes s))%nat -> b ∉ locs t ->
               nodes s' !! b = nodes s !! b) /\
    arrays s' = arrays s.
Proof. apply insert_links. Qed.

Lemma linked_null s : linked s VNull Leaf.
Proof. split; [apply tree_at_null|done]. Qed.

Lemma example_linked : linked example_store (VNode 0) example_shape.
Proof.
  split; [exact example_tree_at|].
  cbn. repeat (first [done | split | eexists]).
Defined.

Lemma insert_keeps_links_witness :
  linked example_store (VNode 0) example_shape /\
  exists T' s',
    insert (VNode 0) (VNum 5) example_store = Ret T' s' /\
    linked s' T' (ins example_shape (length (nodes example_store)) 5) /\
    T' = (if bool_decide (VNode 0 = VNull) then VNode (length (nodes example_store))
          else VNode 0) /\
    length (nodes s') = S (length (nodes example_store)) /\
    (forall b, (b < length (nodes example_store))%nat -> b ∉ locs example_shape ->
               nodes s' !! b = nodes example_store !! b) /\
    arrays s' = arrays example_store.
Proof.
  split; [exact example_linked|].
  exact (insert_keeps_links example_store (VNode 0) example_shape 5 example_linked).
Defined.

(** A run of [insert] over new keys: the tree stays linked and ordered,
    its nodes are the old ones and new ones, and the nodes below [n0] that
    the tree does not use are not written. *)
Lemma insert_all_links ks : forall s T t n0,
  linked s T t -> ordered t ->
  (forall b, b ∈ locs t -> (n0 <= b)%nat) -> (n0 <= length (nodes s))%nat ->
  exists T' s' t',
    insert_all T (map VNum ks) s = Ret T' s' /\
    linked s' T' t' /\ ordered t' /\ keys t' ≡ₚ ks ++ keys t /\
    arrays s' = arrays s /\
    (forall b, b ∈ locs t' -> (n0 <= b)%nat) /\
    (n0 <= length (nodes s'))%nat /\
    (forall b, (b < n0)%nat -> nodes s' !! b = nodes s !! b).
Proof.
  induction ks as [|k ks IH]; intros s T t n0 Hl Ho Hlocs Hn0; cbn [map insert_all].
  - exists T, s, t. split_and!; done.
  - destruct (insert_links s T t k Hl) as
      (T1 & s1 & Hins & Hl1 & _ & Hlen & Hframe & Harr).
    erewrite bind_Ret by exact Hins.
    destruct (IH s1 T1 _ n0 Hl1 (ordered_ins _ _ _ Ho)) as
      (T' & s' & t' & Hall & Hl' & Ho' & Hperm & Harr' & Hlocs' & Hn' & Hframe').
    { intros b Hb. rewrite locs_ins in Hb.
      apply elem_of_cons in Hb as [->|Hb]; auto. }
    { lia. }
    exists T', s', t'. split_and!; try done.
    + rewrite Hperm, keys_ins. cbn. now rewrite <- Permutation_middle.
    + congruence.
    + intros b Hb. rewrite Hframe' by done. apply Hframe; [lia|].
      intros Hin. apply Hlocs in Hin. lia.
Qed.

(** X2. On an array of numbers [fromList] returns a tree with right
    parent links whose keys are the elements; it empties its array and
    writes no other array and no node object that existed before. *)
Theorem fromList_builds_linked_tree (s : store) (a : loc) (ks : list Z) :
  arrays s !! a = Some (map VNum ks) ->
  exists T s' t,
    fromList (Array a) s = Ret T s' /\
    linked s' T t /\ ordered t /\ keys t ≡ₚ ks /\
    arrays s' = <[a := []]> (arrays s) /\
    (forall b, b ∈ locs t -> (length (nodes s) <= b)%nat) /\
    (forall b, (b < length (nodes s))%nat -> nodes s' !! b = nodes s !! b).
Proof.
  intros Ha. rewrite (fromList_right_fold s a _ Ha), <- map_rev.
  set (s0 := mkStore (nodes s) (<[a := []]> (arrays s))).
  destruct (insert_all_links (rev ks) s0 VNull Leaf (length (nodes s))
              (linked_null s0) I) as
    (T & s' & t & Hall & Hl & Ho & Hperm & Harr & Hlocs & _ & Hframe).
  { intros b Hb. inversion Hb. }
  { done. }
  exists T, s', t. split_and!; try done.
  cbn in Hperm. rewrite app_nil_r in Hperm. rewrite Hperm.
  symmetry. apply Permutation_rev.
Qed.

Lemma fromList_builds_linked_tree_witness :
  exists T s' t,
    fromList (Array 0) small_store = Ret T s' /\
    linked s' T t /\ ordered t /\ keys t ≡ₚ small_keys /\
    arrays s' = <[0%nat := []]> (arrays small_store) /\
    (forall b, b ∈ locs t -> (length (nodes small_store) <= b)%nat) /\
    (forall b, (b < length (nodes small_store))%nat ->
       nodes s' !! b = nodes small_store !! b).
Proof.
  exact (fromList_builds_linked_tree small_store 0%nat small_keys eq_refl).
Defined.

(** ** succ and pred without a subtree to descend into *)

Lemma rep_root h c t : rep h (VNode c) t -> c ∈ locs t.
Proof.
  destruct t as [|l b k r]; cbn; [done|]. intros ([= ->] & _).
  apply elem_of_app. right. apply elem_of_cons. now left.
Qed.

(** The node objects of a tree, in order, hold its keys, in order. *)
Lemma rep_inorder h T t :
  rep h T t ->
  Forall2 (fun b k => exists nd, h !! b = Some nd /\ key nd = VNum k)
          (locs t) (keys t).
Proof.
  revert T. induction t as [|l IHl b k r IHr]; cbn; intros T Hr; [constructor|].
  destruct Hr as (_ & nd & Hnd & Hk & Hl & Hrr).
  apply Forall2_app; [eauto|]. constructor; eauto.
Qed.

Lemma succ_loop_null fuel x s : succ_loop fuel x VNull s = Ret VNull s.
Proof. now destruct fuel. Qed.

Lemma succ_loop_stop fuel x p ndp s :
  nodes s !! p = Some ndp -> right ndp <> x ->
  succ_loop fuel x (VNode p) s = Ret (VNode p) s.
Proof.
  intros Hp Hne.
  assert (Hseq : js_seq x (right ndp) = false).
  { apply js_seq_ne. congruence. }
  destruct fuel; cbn [succ_loop truthy]; read_field Hp; now rewrite Hseq.
Qed.

Lemma succ_loop_step fuel p ndp s :
  nodes s !! p = Some ndp -> right ndp <> VNaN ->
  succ_loop (S fuel) (right ndp) (VNode p) s =
  succ_loop fuel (VNode p) (parent ndp) s.
Proof.
  intros Hp Hn. cbn [succ_loop truthy]. read_field Hp.
  rewrite js_seq_refl by done.
  now read_field Hp.
Qed.

(** Climbing from a node [a] without right child inside the tree [t],
    whose root is [T] and hangs under [P]: the loop stops at the node that
    follows [a] in order, or, when [a] is the last node of [t], goes on
    from the root of [t]. *)
Lemma succ_climb s a nda t : forall T P,
  nodes s !! a = Some nda -> right nda = VNull ->
  rep (nodes s) T t -> plinks (nodes s) P t -> NoDup (locs t) ->
  a ∈ locs t ->
  exists l1 l2,
    locs t = l1 ++ a :: l2 /\
    (l2 <> [] -> forall fuel, (height t <= fuel)%nat ->
       succ_loop fuel (VNode a) (parent nda) s = Ret (first_node l2) s) /\
    (l2 = [] -> exists d, (d <= height t)%nat /\ forall fuel,
       succ_loop (d + fuel) (VNode a) (parent nda) s = succ_loop fuel T P s).
Proof.
  intros T P Ha Hra. revert T P.
  induction t as [|l IHl b k r IHr]; intros T P Hr Hp Hnd Hin; [inversion Hin|].
  cbn in Hr, Hp, Hnd, Hin. destruct Hr as (-> & nd & Hb & Hk & Hl & Hrr).
  destruct Hp as ((nd' & Hb' & Hpar) & Hpl & Hpr).
  rewrite Hb in Hb'. injection Hb' as <-.
  apply NoDup_app in Hnd as (Hndl & Hlr & Hndr).
  apply NoDup_cons in Hndr as (Hbr & Hndr).
  apply elem_of_app in Hin as [Hin|Hin]; [|apply elem_of_cons in Hin as [->|Hin]].
  - (* [a] is in the left subtree *)
    destruct (IHl _ _ Hl Hpl Hndl Hin) as (l1 & l2 & Heq & Hnext & Hlast).
    exists l1, (l2 ++ b :: locs r). split_and!.
    + cbn. rewrite Heq, <- app_assoc. done.
    + intros _ fuel Hf. cbn in Hf. destruct l2 as [|c l2].
      * destruct Hlast as (d & Hd & Hclimb); [done|].
        replace fuel with (d + (fuel - d))%nat by lia. rewrite Hclimb.
        cbn [app first_node].
        assert (exists lb, left nd = VNode lb /\ lb ∈ locs l) as (lb & Hlb & Hlbin).
        { destruct l as [|ll lb lk lr]; [inversion Hin|].
          exists lb. pose proof Hl as [Hv _]. split; [done|].
          apply rep_root with (h := nodes s). now rewrite <- Hv. }
        rewrite Hlb. eapply succ_loop_stop; [exact Hb|].
        intros Heq'. rewrite Heq' in Hrr. apply rep_root in Hrr.
        apply (Hlr lb Hlbin). apply elem_of_cons. now right.
      * cbn [app first_node]. apply Hnext; [done|lia].
    + intros Hnil. destruct l2; discriminate.
  - (* [a] is the root *)
    rewrite Hb in Ha. injection Ha as <-.
    rewrite Hra in Hrr. destruct r; [|destruct Hrr as [? _]; done].
    exists (locs l), []. split_and!; [done|done|].
    intros _. exists 0%nat. split; [lia|]. intros fuel. now rewrite Hpar.
  - (* [a] is in the right subtree *)
    destruct (IHr _ _ Hrr Hpr Hndr Hin) as (l1 & l2 & Heq & Hnext & Hlast).
    exists (locs l ++ b :: l1), l2. split_and!.
    + cbn. rewrite Heq, <- app_assoc. done.
    + intros Hne fuel Hf. cbn in Hf. apply Hnext; [done|lia].
    + intros Hnil. destruct (Hlast Hnil) as (d & Hd & Hclimb).
      exists (S d). split; [cbn; lia|]. intros fuel.
      replace (S d + fuel)%nat with (d + S fuel)%nat by lia.
      rewrite Hclimb.
      rewrite succ_loop_step; [|done|eapply rep_not_NaN; exact Hrr].
      now rewrite Hpar.
Qed.

(** X3. In a tree with right parent links, [succ] of a node without right
    child returns the node that follows it in the in-order sequence of the
    nodes, and [null] when it is the last one. *)
Theorem succ_without_right_child (s : store) (T : val) (t : tree) (a : loc)
    (nda : node) :
  linked s T t -> a ∈ locs t ->
  nodes s !! a = Some nda -> right nda = VNull ->
  exists l1 l2,
    locs t = l1 ++ a :: l2 /\
    succ (VNode a) s = Ret (first_node l2) s /\
    Forall2 (fun b k => exists nd, nodes s !! b = Some nd /\ key nd = VNum k)
            (locs t) (keys t).
Proof.
  intros [Ht Hp] Hin Ha Hra. pose proof (height_lt_fuel _ _ _ Ht) as Hf.
  destruct Ht as [Hr Hnd].
  destruct (succ_climb s a nda t T VNull Ha Hra Hr Hp Hnd Hin) as
    (l1 & l2 & Heq & Hnext & Hlast).
  exists l1, l2. split_and!; [done| |now apply rep_inorder with (T := T)].
  unfold succ. read_field Ha. rewrite Hra. cbn [truthy].
  read_field Ha. unfold with_fuel.
  destruct l2 as [|c l2].
  - destruct Hlast as (d & Hd & Hclimb); [done|].
    replace (S (length (nodes s))) with (d + (S (length (nodes s)) - d))%nat by lia.
    rewrite Hclimb. apply succ_loop_null.
  - apply Hnext; [done|lia].
Qed.

Lemma succ_without_right_child_witness :
  exists l1 l2,
    locs example_shape = l1 ++ 6%nat :: l2 /\
    succ (VNode 6) example_store = Ret (first_node l2) example_store /\
    Forall2 (fun b k => exists nd, nodes example_store !! b = Some nd /\
                                   key nd = VNum k)
            (locs example_shape) (keys example_shape).
Proof.
  exact (succ_without_right_child example_store (VNode 0) example_shape 6%nat
           (mkNode (VNum 2) VNull VNull (VNode 3))
           example_linked (bool_decide_unpack (6%nat ∈ locs example_shape) I)
           eq_refl eq_refl).
Defined.

Lemma pred_loop_null fuel x s : pred_loop fuel x VNull s = Ret VNull s.
Proof. now destruct fuel. Qed.

Lemma pred_loop_stop fuel x p ndp s :
  nodes s !! p = Some ndp -> left ndp <> x ->
  pred_loop fuel x (VNode p) s = Ret (VNode p) s.
Proof.
  intros Hp Hne.
  assert (Hseq : js_seq x (left ndp) = false).
  { apply js_seq_ne. congruence. }
  destruct fuel; cbn [pred_loop truthy]; read_field Hp; now rewrite Hseq.
Qed.

Lemma pred_loop_step fuel p ndp s :
  nodes s !! p = Some ndp -> left ndp <> VNaN ->
  pred_loop (S fuel) (left ndp) (VNode p) s =
  pred_loop fuel (VNode p) (parent ndp) s.
Proof.
  intros Hp Hn. cbn [pred_loop truthy]. read_field Hp.
  rewrite js_seq_refl by done.
  now read_field Hp.
Qed.

(** The mirror image of [succ_climb]. *)
Lemma pred_climb s a nda t : forall T P,
  nodes s !! a = Some nda -> left nda = VNull ->
  rep (nodes s) T t -> plinks (nodes s) P t -> NoDup (locs t) ->
  a ∈ locs t ->
  exists l1 l2,
    locs t = l1 ++ a :: l2 /\
    (l1 <> [] -> forall fuel, (height t <= fuel)%nat ->
       pred_loop fuel (VNode a) (parent nda) s = Ret (last_node l1) s) /\
    (l1 = [] -> exists d, (d <= height t)%nat /\ forall fuel,
       pred_loop (d + fuel) (VNode a) (parent nda) s = pred_loop fuel T P s).
Proof.
  intros T P Ha Hla. revert T P.
  induction t as [|l IHl b k r IHr]; intros T P Hr Hp Hnd Hin; [inversion Hin|].
  cbn in Hr, Hp, Hnd, Hin. destruct Hr as (-> & nd & Hb & Hk & Hl & Hrr).
  destruct Hp as ((nd' & Hb' & Hpar) & Hpl & Hpr).
  rewrite Hb in Hb'. injection Hb' as <-.
  apply NoDup_app in Hnd as (Hndl & Hlr & Hndr).
  apply NoDup_cons in Hndr as (Hbr & Hndr).
  apply elem_of_app in Hin as [Hin|Hin]; [|apply elem_of_cons in Hin as [->|Hin]].
  - (* [a] is in the left subtree *)
    destruct (IHl _ _ Hl Hpl Hndl Hin) as (l1 & l2 & Heq & Hprev & Hfirst).
    exists l1, (l2 ++ b :: locs r). split_and!.
    + cbn. rewrite Heq, <- app_assoc. done.
    + intros Hne fuel Hf. cbn in Hf. apply Hprev; [done|lia].
    + intros Hnil. destruct (Hfirst Hnil) as (d & Hd & Hclimb).
      exists (S d). split; [cbn; lia|]. intros fuel.
      replace (S d + fuel)%nat with (d + S fuel)%nat by lia.
      rewrite Hclimb.
      rewrite pred_loop_step; [|done|eapply rep_not_NaN; exact Hl].
      now rewrite Hpar.
  - (* [a] is the root *)
    rewrite Hb in Ha. injection Ha as <-.
    rewrite Hla in Hl. destruct l; [|destruct Hl as [? _]; done].
    exists [], (locs r). split_and!; [done|done|].
    intros _. exists 0%nat. split; [lia|]. intros fuel. now rewrite Hpar.
  - (* [a] is in the right subtree *)
    destruct (IHr _ _ Hrr Hpr Hndr Hin) as (l1 & l2 & Heq & Hprev & Hfirst).
    exists (locs l ++ b :: l1), l2. split_and!.
    + cbn. rewrite Heq, <- app_assoc. done.
    + intros _ fuel Hf. cbn in Hf. unfold last_node. rewrite last_app_cons.
      destruct l1 as [|c l1].
      * destruct Hfirst as (d & Hd & Hclimb); [done|].
        replace fuel with (d + (fuel - d))%nat by lia. rewrite Hclimb.
        cbn [last].
        assert (exists rb, right nd = VNode rb /\ rb ∈ locs r) as (rb & Hrb & Hrbin).
        { destruct r as [|rl rb rk rr]; [inversion Hin|].
          exists rb. pose proof Hrr as [Hv _]. split; [done|].
          apply rep_root with (h := nodes s). now rewrite <- Hv. }
        rewrite Hrb. eapply pred_loop_stop; [exact Hb|].
        intros Heq'. rewrite Heq' in Hl. apply rep_root in Hl.
        apply (Hlr rb Hl). apply elem_of_cons. now right.
      * rewrite last_cons_cons. apply Hprev; [done|lia].
    + intros Hnil. destruct (locs l); discriminate.
Qed.

(** X4. In a tree with right parent links, [pred] of a node without left
    child returns the node that precedes it in the in-order sequence of
    the nodes, and [null] when it is the first one. *)
Theorem pred_without_left_child (s : store) (T : val) (t : tree) (a : loc)
    (nda : node) :
  linked s T t -> a ∈ locs t ->
  nodes s !! a = Some nda -> left nda = VNull ->
  exists l1 l2,
    locs t = l1 ++ a :: l2 /\
    pred (VNode a) s = Ret (last_node l1) s /\
    Forall2 (fun b k => exists nd, nodes s !! b = Some nd /\ key nd = VNum k)
            (locs t) (keys t).
Proof.
  intros [Ht Hp] Hin Ha Hla. pose proof (height_lt_fuel _ _ _ Ht) as Hf.
  destruct Ht as [Hr Hnd].
  destruct (pred_climb s a nda t T VNull Ha Hla Hr Hp Hnd Hin) as
    (l1 & l2 & Heq & Hprev & Hfirst).
  exists l1, l2. split_and!; [done| |now apply rep_inorder with (T := T)].
  unfold pred. read_field Ha. rewrite Hla. cbn [truthy].
  read_field Ha. unfold with_fuel.
  destruct l1 as [|c l1].
  - destruct Hfirst as (d & Hd & Hclimb); [done|].
    replace (S (length (nodes s))) with (d + (S (length (nodes s)) - d))%nat by lia.
    rewrite Hclimb. apply pred_loop_null.
  - apply Hprev; [done|lia].
Qed.

Lemma pred_without_left_child_witness :
  exists l1 l2,
    locs example_shape = l1 ++ 6%nat :: l2 /\
    pred (VNode 6) example_store = Ret (last_node l1) example_store /\
    Forall2 (fun b k => exists nd, nodes example_store !! b = Some nd /\
                                   key nd = VNum k)
            (locs example_shape) (keys example_shape).
Proof.
  exact (pred_without_left_child example_store (VNode 0) example_shape 6%nat
           (mkNode (VNum 2) VNull VNull (VNode 3))
           example_linked (bool_decide_unpack (6%nat ∈ locs example_shape) I)
           eq_refl eq_refl).
Defined.

(** ** deleteNode on a node with at most one child *)

Lemma splice_notin t a : a ∉ locs t -> splice t a = t.
Proof.
  induction t as [|l IHl b k r IHr]; cbn; intros Ha; [done|].
  rewrite elem_of_app, elem_of_cons in Ha.
  destruct (decide (b = a)) as [->|Hne]; [exfalso; auto|].
  rewrite IHl, IHr by auto. done.
Qed.

Lemma rep_is_Some h v t b : rep h v t -> b ∈ locs t -> is_Some (h !! b).
Proof. intros Hr Hb. apply lookup_lt_is_Some_2. eapply rep_lookup; eauto. Qed.

(** The parts of the tree [deleteNode] does not write. *)
Lemma spliced_frame h h' a nda v t :
  rep h v t ->
  (forall b nd, b ∈ locs t -> h !! b = Some nd ->
     h' !! b = Some (spliced a nda b nd)) ->
  (forall b, b ∈ locs t -> VNode b <> child_of nda /\ VNode b <> parent nda) ->
  rep h' v t /\ forall P, plinks h P t -> plinks h' P t.
Proof.
  intros Hr Hh' Hout.
  assert (Hsame : forall b nd, b ∈ locs t -> h !! b = Some nd -> h' !! b = Some nd).
  { intros b nd Hb Hnd. rewrite (Hh' b nd Hb Hnd). unfold spliced.
    destruct (Hout b Hb) as [Hc Hp]. now rewrite !decide_False. }
  split.
  - eapply rep_frame; [exact Hr|]. intros b Hb.
    destruct (rep_is_Some _ _ _ _ Hr Hb) as [nd Hnd].
    now rewrite Hnd, (Hsame b nd).
  - intros P HP. eapply plinks_frame; [exact HP|]. intros b nd Hb Hnd.
    exists nd. split; [now apply Hsame|done].
Qed.

(** The subtree that moves up keeps its shape and hangs under the new
    parent. *)
Lemma reparent h h' a nda t P0 :
  rep h (child_of nda) t -> plinks h P0 t -> NoDup (locs t) ->
  (forall b nd, b ∈ locs t -> h !! b = Some nd ->
     h' !! b = Some (spliced a nda b nd)) ->
  (forall b, b ∈ locs t -> VNode b <> parent nda) ->
  rep h' (child_of nda) t /\ plinks h' (parent nda) t.
Proof.
  intros Hr Hp Hnd Hh' Hout.
  destruct t as [|l c k r]; [done|].
  cbn in Hr, Hp, Hnd. destruct Hr as (Hc & nd & Hcl & Hk & Hl & Hrr).
  destruct Hp as (_ & Hpl & Hpr).
  apply NoDup_app in Hnd as (Hndl & Hlr & Hndr).
  apply NoDup_cons in Hndr as (Hcr & Hndr).
  assert (Hroot : h' !! c = Some (upd Parent (parent nda) nd)).
  { rewrite (Hh' c nd); [|cbn; apply elem_of_app; right; apply elem_of_cons; now left|done].
    unfold spliced. now rewrite decide_True. }
  assert (Hsub : forall v t', (t' = l \/ t' = r) -> rep h v t' ->
            rep h' v t' /\ forall P, plinks h P t' -> plinks h' P t').
  { intros v t' Ht' Hv. eapply spliced_frame; [exact Hv| |].
    - intros b ndb Hb. apply Hh'. cbn. destruct Ht' as [->| ->].
      + apply elem_of_app. now left.
      + apply elem_of_app. right. apply elem_of_cons. now right.
    - intros b Hb. split.
      + rewrite Hc. intros [= ->]. destruct Ht' as [->| ->]; [|done].
        apply (Hlr c Hb). apply elem_of_cons. now left.
      + apply Hout. cbn. destruct Ht' as [->| ->].
        * apply elem_of_app. now left.
        * apply elem_of_app. right. apply elem_of_cons. now right. }
  destruct (Hsub _ l (or_introl eq_refl) Hl) as [Hl' Hpl'].
  destruct (Hsub _ r (or_intror eq_refl) Hrr) as [Hr' Hpr'].
  split.
  - cbn. split; [done|]. eexists. split; [exact Hroot|]. cbn. auto.
  - cbn. split_and!; auto. eexists. split; [exact Hroot|]. done.
Qed.

(** The store after [deleteNode] has removed the node [a], which has at
    most one child, described object by object with [spliced]: the root
    value and the shape that results, the parent links, and the in-order
    sequences. *)
Lemma splice_heap h h' a nda t : forall T P,
  h !! a = Some nda -> (left nda = VNull \/ right nda = VNull) ->
  rep h T t -> plinks h P t -> NoDup (locs t) -> a ∈ locs t ->
  (forall p, P = VNode p -> p ∉ locs t) ->
  (forall b nd, b ∈ locs t -> b <> a -> h !! b = Some nd ->
     h' !! b = Some (spliced a nda b nd)) ->
  (child_of nda = VNull \/
   exists cl, child_of nda = VNode cl /\ cl ∈ locs t /\ cl <> a) /\
  (T = VNode a -> parent nda = P) /\
  (T <> VNode a ->
     exists p, parent nda = VNode p /\ p ∈ locs t /\ p <> a /\
               VNode p <> child_of nda) /\
  rep h' (if decide (T = VNode a) then child_of nda else T) (splice t a) /\
  plinks h' P (splice t a) /\
  exists l1 l2 k1 k2 ka,
    key nda = VNum ka /\
    locs t = l1 ++ a :: l2 /\ locs (splice t a) = l1 ++ l2 /\
    keys t = k1 ++ ka :: k2 /\ keys (splice t a) = k1 ++ k2.
Proof.
  intros T P Ha Hone. revert T P.
  induction t as [|l IHl b k r IHr]; intros T P Hr Hp Hnd Hin HP Hh';
    [inversion Hin|].
  cbn in Hr, Hp, Hnd. destruct Hr as (-> & nd & Hb & Hk & Hl & Hrr).
  destruct Hp as ((nd' & Hb' & Hpar) & Hpl & Hpr).
  rewrite Hb in Hb'. injection Hb' as <-.
  apply NoDup_app in Hnd as (Hndl & Hlr & Hndr).
  apply NoDup_cons in Hndr as (Hbr & Hndr).
  assert (Hbl : b ∉ locs l).
  { intros Hx. apply (Hlr b Hx). apply elem_of_cons. now left. }
  assert (Hdisj : forall x, x ∈ locs l -> x ∉ locs r).
  { intros x Hx Hxr. apply (Hlr x Hx). apply elem_of_cons. now right. }
  assert (Hinl : forall x, x ∈ locs l -> x ∈ locs (Bin l b k r)).
  { intros x Hx. cbn. apply elem_of_app. now left. }
  assert (Hinr : forall x, x ∈ locs r -> x ∈ locs (Bin l b k r)).
  { intros x Hx. cbn. apply elem_of_app. right. apply elem_of_cons. now right. }
  assert (Hinb : b ∈ locs (Bin l b k r)).
  { cbn. apply elem_of_app. right. apply elem_of_cons. now left. }
  destruct (decide (b = a)) as [->|Hba].
  - (* [a] is the root of [t] *)
    rewrite Hb in Ha. injection Ha as ->.
    assert (exists tc,
      splice (Bin l a k r) a = tc /\ rep h (child_of nda) tc /\
      plinks h (VNode a) tc /\ NoDup (locs tc) /\
      (forall x, x ∈ locs tc -> x ∈ locs (Bin l a k r) /\ x <> a) /\
      locs tc = locs l ++ locs r /\ keys tc = keys l ++ keys r)
      as (tc & Hsp & Hrc & Hpc & Hndc & Hsubc & Hlocs & Hkeys).
    { cbn [splice]. rewrite decide_True by done. unfold child_of.
      destruct l as [|ll lb lk lr].
      - cbn in Hl. rewrite Hl. cbn [truthy negb].
        exists r. split_and!; try done.
        intros x Hx. split; [auto|]. intros ->. done.
      - pose proof Hl as [Hv _]. rewrite Hv. cbn [truthy negb].
        destruct Hone as [Hone|Hone]; [congruence|].
        rewrite Hone in Hrr. destruct r; [|destruct Hrr as [? _]; done].
        exists (Bin ll lb lk lr). split_and!; try done.
        + now rewrite <- Hv.
        + intros x Hx. split; [auto|]. intros ->. done.
        + now rewrite app_nil_r.
        + now rewrite app_nil_r. }
    destruct (reparent h h' a nda tc (VNode a) Hrc Hpc Hndc) as [Hrc' Hpc'].
    { intros x ndx Hx. destruct (Hsubc x Hx). now apply Hh'. }
    { intros x Hx Heq. rewrite Hpar in Heq. destruct (Hsubc x Hx) as [Hxt _].
      now apply (HP x). }
    rewrite Hsp. split_and!; try done.
    + destruct tc as [|cl' c' ck cr]; [now left|right].
      pose proof Hrc as [Hv _]. exists c'. split; [done|].
      apply Hsubc. rewrite Hv in Hrc. now apply rep_root in Hrc.
    + now rewrite decide_True.
    + now rewrite <- Hpar.
    + exists (locs l), (locs r), (keys l), (keys r), k. done.
  - assert (HTa : VNode b <> VNode a) by congruence.
    cbn [splice]. rewrite !decide_False by done.
    apply elem_of_app in Hin as [Hin|Hin];
      [|apply elem_of_cons in Hin as [->|Hin]; [done|]].
    + (* [a] is in the left subtree *)
      destruct (IHl (left nd) (VNode b) Hl Hpl Hndl Hin) as
        (I1 & I3 & I4 & I5 & I6 & l1 & l2 & k1 & k2 & ka & Hka & Hl1 & Hl2 & Hk1 & Hk2).
      { intros p [= <-]. done. }
      { intros x ndx Hx. apply Hh'. auto. }
      rewrite (splice_notin r a) by auto.
      assert (Hchild : forall x, x ∈ locs r \/ x = b -> VNode x <> child_of nda).
      { intros x Hx Heq. destruct I1 as [I1|(cl & I1 & Hxl & _)]; [congruence|].
        rewrite I1 in Heq. injection Heq as ->.
        destruct Hx as [Hx| ->]; [now apply (Hdisj cl)|done]. }
      assert (exists p, parent nda = VNode p /\ (p = b \/ p ∈ locs l) /\ p <> a /\
                        VNode p <> child_of nda /\
                        (left nd = VNode a <-> p = b)) as
        (p & Hpa & Hpin & Hpne & Hpc & Hpb).
      { destruct (decide (left nd = VNode a)) as [Hla|Hla].
        - exists b. rewrite (I3 Hla). split_and!; auto. done.
        - destruct (I4 Hla) as (p & ? & ? & ? & ?). exists p. split_and!; auto.
          split; [done|]. intros ->. done. }
      assert (Hnb : h' !! b =
                Some (if decide (left nd = VNode a)
                      then upd Left (child_of nda) nd else nd)).
      { rewrite (Hh' b nd Hinb Hba Hb). unfold spliced.
        rewrite decide_False by auto. rewrite Hpa.
        destruct (decide (left nd = VNode a)) as [Hla|Hla].
        - apply Hpb in Hla as ->. now rewrite decide_True.
        - rewrite decide_False; [done|]. intros [= ->]. now apply Hla, Hpb. }
      destruct (spliced_frame h h' a nda (right nd) r Hrr) as [Hrr' Hpr'].
      { intros x ndx Hx. apply Hh'; [auto|]. intros ->. now apply (Hdisj a). }
      { intros x Hx. split; [auto|]. rewrite Hpa. intros [= ->].
        destruct Hpin as [->|Hpl']; [done|now apply (Hdisj p)]. }
      split_and!.
      * destruct I1 as [I1|(cl & I1 & ? & ?)]; [now left|right].
        exists cl. auto.
      * done.
      * intros _. exists p. split_and!; try done.
        destruct Hpin as [->|?]; auto.
      * cbn. split; [done|]. eexists. split; [exact Hnb|].
        destruct (decide (left nd = VNode a)); cbn; auto.
      * cbn. split_and!; auto.
        eexists. split; [exact Hnb|]. now destruct (decide (left nd = VNode a)).
      * exists l1, (l2 ++ b :: locs r), k1, (k2 ++ k :: keys r), ka. cbn.
        rewrite Hl1, Hl2, Hk1, Hk2, <- !app_assoc. done.
    + (* [a] is in the right subtree *)
      destruct (IHr (right nd) (VNode b) Hrr Hpr Hndr Hin) as
        (I1 & I3 & I4 & I5 & I6 & l1 & l2 & k1 & k2 & ka & Hka & Hl1 & Hl2 & Hk1 & Hk2).
      { intros p [= <-]. done. }
      { intros x ndx Hx. apply Hh'. auto. }
      assert (Hal : a ∉ locs l) by (intros Hx; now apply (Hdisj a)).
      rewrite (splice_notin l a) by auto.
      assert (Hleft : left nd <> VNode a).
      { intros Heq. rewrite Heq in Hl. now apply rep_root in Hl. }
      assert (Hchild : forall x, x ∈ locs l \/ x = b -> VNode x <> child_of nda).
      { intros x Hx Heq. destruct I1 as [I1|(cl & I1 & Hxr & _)]; [congruence|].
        rewrite I1 in Heq. injection Heq as ->.
        destruct Hx as [Hx| ->]; [now apply (Hdisj cl)|done]. }
      assert (exists p, parent nda = VNode p /\ (p = b \/ p ∈ locs r) /\ p <> a /\
                        VNode p <> child_of nda /\
                        (right nd = VNode a <-> p = b)) as
        (p & Hpa & Hpin & Hpne & Hpc & Hpb).
      { destruct (decide (right nd = VNode a)) as [Hra|Hra].
        - exists b. rewrite (I3 Hra). split_and!; auto. done.
        - destruct (I4 Hra) as (p & ? & ? & ? & ?). exists p. split_and!; auto.
          split; [done|]. intros ->. done. }
      assert (Hnb : h' !! b =
                Some (if decide (right nd = VNode a)
                      then upd Right (child_of nda) nd else nd)).
      { rewrite (Hh' b nd Hinb Hba Hb). unfold spliced.
        rewrite decide_False by auto. rewrite Hpa.
        destruct (decide (right nd = VNode a)) as [Hra|Hra].
        - apply Hpb in Hra as ->. rewrite decide_True by done.
          now rewrite decide_False.
        - rewrite decide_False; [done|]. intros [= ->]. now apply Hra, Hpb. }
      destruct (spliced_frame h h' a nda (left nd) l Hl) as [Hl' Hpl'].
      { intros x ndx Hx. apply Hh'; [auto|]. intros ->. done. }
      { intros x Hx. split; [auto|]. rewrite Hpa. intros [= ->].
        destruct Hpin as [->|Hpr']; [done|now apply (Hdisj p)]. }
      split_and!.
      * destruct I1 as [I1|(cl & I1 & ? & ?)]; [now left|right].
        exists cl. auto.
      * done.
      * intros _. exists p. split_and!; try done.
        destruct Hpin as [->|?]; auto.
      * cbn. split; [done|]. eexists. split; [exact Hnb|].
        destruct (decide (right nd = VNode a)); cbn; auto.
      * cbn. split_and!; auto.
        eexists. split; [exact Hnb|]. now destruct (decide (right nd = VNode a)).
      * exists (locs l ++ b :: l1), l2, (keys l ++ k :: k1), k2, ka. cbn.
        rewrite Hl1, Hl2, Hk1, Hk2, <- !app_assoc. done.
Qed.

Lemma keys_splice_Forall (P : Z -> Prop) t a :
  Forall P (keys t) -> Forall P (keys (splice t a)).
Proof.
  induction t as [|l IHl b k r IHr]; cbn; [done|].
  intros H. apply Forall_app in H as [Hl H]. apply Forall_cons in H as [Hk Hr].
  destruct (decide (b = a)).
  - now destruct l.
  - cbn. apply Forall_app. split; [auto|]. constructor; auto.
Qed.

Lemma ordered_splice t a : ordered t -> ordered (splice t a).
Proof.
  induction t as [|l IHl b k r IHr]; cbn; [done|].
  intros (Hl & Hr & Hol & Hor). destruct (decide (b = a)).
  - now destruct l.
  - cbn. split_and!; auto using keys_splice_Forall.
Qed.

(** With at most one child [deleteNode] gets to the code after the
    [if ... else if ...] with the child in [x]. *)
Lemma deleteNode_to_splice s T a nda :
  nodes s !! a = Some nda -> (left nda = VNull \/ right nda = VNull) ->
  deleteNode T (VNode a) s =
  bind (if truthy (child_of nda) then setf Parent (child_of nda) (parent nda)
        else ret tt)
       (fun _ =>
          if negb (truthy (parent nda)) then ret (child_of nda)
          else
            let* pl := getf Left (parent nda) in
            if js_seq pl (VNode a)
            then setf Left (parent nda) (child_of nda);; ret T
            else setf Right (parent nda) (child_of nda);; ret T) s.
Proof.
  intros Ha Hone. unfold deleteNode, child_of. cbn [truthy negb].
  read_field Ha. read_field Ha.
  destruct (truthy (left nda)) eqn:Htl; cbn [negb].
  - destruct Hone as [Hone|Hone]; [now rewrite Hone in Htl|].
    read_field Ha. rewrite Hone. cbn [truthy negb]. now read_field Ha.
  - now read_field Ha.
Qed.

(** The write of the child's [parent] field. *)
Lemma write_child_parent s c pv :
  (c = VNull \/ exists cl, c = VNode cl /\ is_Some (nodes s !! cl)) ->
  exists h1,
    (if truthy c then setf Parent c pv else ret tt) s =
      Ret tt (mkStore h1 (arrays s)) /\
    length h1 = length (nodes s) /\
    forall b nd, nodes s !! b = Some nd ->
      h1 !! b = Some (if decide (VNode b = c) then upd Parent pv nd else nd).
Proof.
  intros [->|(cl & -> & ndc & Hcl)].
  - exists (nodes s). split_and!; [now destruct s|done|].
    intros b nd Hb. now rewrite decide_False.
  - cbn [truthy]. rewrite (setf_node _ _ _ _ _ Hcl). eexists.
    split_and!; [done|apply length_insert|].
    intros b nd Hb. destruct (decide (b = cl)) as [->|Hne].
    + rewrite decide_True by done. rewrite Hcl in Hb. injection Hb as ->.
      apply list_lookup_insert_eq. eapply lookup_lt_Some; eauto.
    + rewrite decide_False by congruence. now rewrite list_lookup_insert_ne.
Qed.

(** The write of the parent's [left] or [right] field. *)
Lemma write_parent_child s (T : val) a p ndp c :
  nodes s !! p = Some ndp ->
  exists h2,
    (let* pl := getf Left (VNode p) in
     if js_seq pl (VNode a) then setf Left (VNode p) c;; ret T
     else setf Right (VNode p) c;; ret T) s = Ret T (mkStore h2 (arrays s)) /\
    length h2 = length (nodes s) /\
    forall b nd, nodes s !! b = Some nd ->
      h2 !! b =
        Some (if decide (VNode b = VNode p) then
                upd (if decide (left nd = VNode a) then Left else Right) c nd
              else nd).
Proof.
  intros Hp. read_field Hp.
  exists (<[p := upd (if decide (left ndp = VNode a) then Left else Right) c ndp]>
            (nodes s)).
  split_and!.
  - destruct (decide (left ndp = VNode a)) as [Hl|Hl].
    + rewrite Hl, js_seq_refl by done.
      erewrite bind_Ret by (apply setf_node; exact Hp). reflexivity.
    + rewrite js_seq_ne by done.
      erewrite bind_Ret by (apply setf_node; exact Hp). reflexivity.
  - apply length_insert.
  - intros b nd Hb. destruct (decide (VNode b = VNode p)) as [[= ->]|Hne].
    + rewrite Hp in Hb. injection Hb as ->.
      apply list_lookup_insert_eq. eapply lookup_lt_Some; eauto.
    + rewrite list_lookup_insert_ne; [done|]. congruence.
Qed.

(** X5. In a tree with right parent links, [deleteNode] on a node with at
    most one child returns normally; the result is the tree without that
    node, its child in its place, with right parent links and the order of
    the keys kept; the in-order sequence loses exactly the key of the
    node; every node object of the store is as [spliced] says, so only the
    child and the parent of the node are written. *)
Theorem deleteNode_at_most_one_child (s : store) (T : val) (t : tree)
    (a : loc) (nda : node) :
  linked s T t -> a ∈ locs t ->
  nodes s !! a = Some nda -> (left nda = VNull \/ right nda = VNull) ->
  exists T' s',
    deleteNode T (VNode a) s = Ret T' s' /\
    T' = (if decide (T = VNode a) then child_of nda else T) /\
    linked s' T' (splice t a) /\
    (ordered t -> ordered (splice t a)) /\
    (exists l1 l2 k1 k2 ka,
       key nda = VNum ka /\
       locs t = l1 ++ a :: l2 /\ locs (splice t a) = l1 ++ l2 /\
       keys t = k1 ++ ka :: k2 /\ keys (splice t a) = k1 ++ k2 /\
       toList T' s' = Ret (map VNum (k1 ++ k2)) s') /\
    (forall b nd, nodes s !! b = Some nd ->
       nodes s' !! b = Some (spliced a nda b nd)) /\
    length (nodes s') = length (nodes s) /\
    arrays s' = arrays s.
Proof.
  intros [[Hr Hnd] Hp] Hin Ha Hone.
  (* where the child and the parent are *)
  destruct (splice_heap (nodes s) (imap (spliced a nda) (nodes s)) a nda t T VNull
              Ha Hone Hr Hp Hnd Hin) as (Hc & Hroot & Hpar & _).
  { intros p [=]. }
  { intros b nd _ _ Hb. rewrite list_lookup_imap.
    unfold loc in *. now rewrite Hb. }
  assert (Hc' : child_of nda = VNull \/
                exists cl, child_of nda = VNode cl /\ is_Some (nodes s !! cl)).
  { destruct Hc as [?|(cl & ? & Hcl & _)]; [now left|right].
    exists cl. split; [done|]. eapply rep_is_Some; eauto. }
  (* the run *)
  rewrite (deleteNode_to_splice s T a nda Ha Hone).
  destruct (write_child_parent s (child_of nda) (parent nda) Hc') as
    (h1 & Hrun1 & Hlen1 & Hh1).
  erewrite bind_Ret by exact Hrun1.
  assert (exists h2,
    (if negb (truthy (parent nda)) then ret (child_of nda)
     else
       let* pl := getf Left (parent nda) in
       if js_seq pl (VNode a)
       then setf Left (parent nda) (child_of nda);; ret T
       else setf Right (parent nda) (child_of nda);; ret T)
      (mkStore h1 (arrays s)) =
    Ret (if decide (T = VNode a) then child_of nda else T)
        (mkStore h2 (arrays s)) /\
    length h2 = length (nodes s) /\
    forall b nd, nodes s !! b = Some nd -> h2 !! b = Some (spliced a nda b nd))
    as (h2 & Hrun2 & Hlen & Hh2).
  { destruct (decide (T = VNode a)) as [HT|HT].
    - rewrite (Hroot HT). cbn [truthy negb]. exists h1. split_and!; [done|done|].
      intros b nd Hb. rewrite (Hh1 b nd Hb). unfold spliced.
      rewrite (Hroot HT). destruct (decide (VNode b = child_of nda)); [done|].
      now rewrite decide_False.
    - destruct (Hpar HT) as (p & Hpv & Hpin & Hpa & Hpc).
      rewrite Hpv. cbn [truthy negb].
      destruct (rep_is_Some _ _ _ _ Hr Hpin) as [ndp Hndp].
      assert (Hp1 : nodes (mkStore h1 (arrays s)) !! p = Some ndp).
      { cbn. rewrite (Hh1 p ndp Hndp). now rewrite decide_False. }
      destruct (write_parent_child _ T a p ndp (child_of nda) Hp1) as
        (h2 & Hrun2 & Hlen2 & Hh2).
      exists h2. split_and!; [exact Hrun2|cbn in Hlen2; congruence|].
      intros b nd Hb. rewrite (Hh2 b _ (Hh1 b nd Hb)). unfold spliced.
      rewrite Hpv. destruct (decide (VNode b = child_of nda)) as [Hbc|Hbc].
      + rewrite decide_False; [done|]. congruence.
      + done. }
  rewrite Hrun2.
  (* the tree of the new store *)
  destruct (splice_heap (nodes s) h2 a nda t T VNull Ha Hone Hr Hp Hnd Hin) as
    (_ & _ & _ & Hr' & Hp' & l1 & l2 & k1 & k2 & ka & Hka & Hl1 & Hl2 & Hk1 & Hk2).
  { intros p [=]. }
  { intros b nd _ _ Hb. now apply Hh2. }
  assert (Hnd' : NoDup (locs (splice t a))).
  { rewrite Hl2. rewrite Hl1 in Hnd.
    apply NoDup_app in Hnd as (H1 & H12 & H2). apply NoDup_cons in H2 as [_ H2].
    apply NoDup_app. split_and!; try done.
    intros x Hx Hx2. apply (H12 x Hx). apply elem_of_cons. now right. }
  eexists _, _. split; [reflexivity|].
  assert (Ht' : tree_at (mkStore h2 (arrays s))
                  (if decide (T = VNode a) then child_of nda else T)
                  (splice t a)) by done.
  split_and!; try done.
  - now apply ordered_splice.
  - exists l1, l2, k1, k2, ka. split_and!; try done.
    rewrite (toList_spec _ _ _ Ht'). now rewrite Hk2.
Qed.

Lemma deleteNode_at_most_one_child_witness :
  exists T' s',
    deleteNode (VNode 0) (VNode 5) example_store = Ret T' s' /\
    T' = (if decide (VNode 0 = VNode 5)
          then child_of (mkNode (VNum 16) (VNode 7) VNull (VNode 2))
          else VNode 0) /\
    linked s' T' (splice example_shape 5) /\
    (ordered example_shape -> ordered (splice example_shape 5)) /\
    (exists l1 l2 k1 k2 ka,
       key (mkNode (VNum 16) (VNode 7) VNull (VNode 2)) = VNum ka /\
       locs example_shape = l1 ++ 5%nat :: l2 /\
       locs (splice example_shape 5) = l1 ++ l2 /\
       keys example_shape = k1 ++ ka :: k2 /\
       keys (splice example_shape 5) = k1 ++ k2 /\
       toList T' s' = Ret (map VNum (k1 ++ k2)) s') /\
    (forall b nd, nodes example_store !! b = Some nd ->
       nodes s' !! b =
         Some (spliced 5 (mkNode (VNum 16) (VNode 7) VNull (VNode 2)) b nd)) /\
    length (nodes s') = length (nodes example_store) /\
    arrays s' = arrays example_store.
Proof.
  exact (deleteNode_at_most_one_child example_store (VNode 0) example_shape
           5%nat (mkNode (VNum 16) (VNode 7) VNull (VNode 2))
           example_linked (bool_decide_unpack (5%nat ∈ locs example_shape) I)
           eq_refl (or_intror eq_refl)).
Defined.

(** ** Where a node is in its tree *)

(** A node of a tree, its two subtrees and what comes before and after
    them in the in-order sequences of the nodes and of the keys. *)
Lemma locate h a nda t : forall T,
  rep h T t -> NoDup (locs t) -> a ∈ locs t -> h !! a = Some nda ->
  exists la ra ka l1 l2 k1 k2,
    key nda = VNum ka /\
    rep h (left nda) la /\ rep h (right nda) ra /\
    NoDup (locs la) /\ NoDup (locs ra) /\
    locs t = (l1 ++ locs la) ++ a :: (locs ra ++ l2) /\
    keys t = (k1 ++ keys la) ++ ka :: (keys ra ++ k2) /\
    length l1 = length k1.
Proof.
  induction t as [|l IHl b k r IHr]; intros T Hr Hnd Hin Ha; [inversion Hin|].
  cbn in Hr, Hnd. destruct Hr as (-> & nd & Hb & Hk & Hl & Hrr).
  apply NoDup_app in Hnd as (Hndl & Hlr & Hndr).
  apply NoDup_cons in Hndr as (Hbr & Hndr).
  cbn in Hin.
  apply elem_of_app in Hin as [Hin|Hin]; [|apply elem_of_cons in Hin as [->|Hin]].
  - destruct (IHl _ Hl Hndl Hin Ha) as
      (la & ra & ka & l1 & l2 & k1 & k2 & Hka & Hla & Hra & Hnla & Hnra & Hlo & Hke & Hlen).
    exists la, ra, ka, l1, (l2 ++ b :: locs r), k1, (k2 ++ k :: keys r).
    split_and!; try done; cbn; [rewrite Hlo|rewrite Hke];
      repeat (rewrite <- app_assoc; cbn); done.
  - rewrite Hb in Ha. injection Ha as <-.
    exists l, r, k, [], [], [], []. split_and!; try done; cbn;
      now rewrite app_nil_r.
  - destruct (IHr _ Hrr Hndr Hin Ha) as
      (la & ra & ka & l1 & l2 & k1 & k2 & Hka & Hla & Hra & Hnla & Hnra & Hlo & Hke & Hlen).
    exists la, ra, ka, (locs l ++ b :: l1), l2, (keys l ++ k :: k1), k2.
    split_and!; try done; cbn.
    + rewrite Hlo. repeat (rewrite <- app_assoc; cbn). done.
    + rewrite Hke. repeat (rewrite <- app_assoc; cbn). done.
    + rewrite !length_app. cbn. rewrite length_locs_keys. lia.
Qed.

(** ** min and max on whole trees *)

Lemma max_rec_spec t : forall d fuel s T,
  rep (nodes s) T t -> t <> Leaf -> (height t < fuel)%nat ->
  max_rec fuel T s = Ret (VNum (rightmost t d)) s.
Proof.
  induction t as [|l _ b k r IHr]; intros d fuel s T Hr Hne Hf; [done|].
  destruct fuel as [|fuel]; [lia|]. cbn in Hr, Hf.
  destruct Hr as (-> & nd & Hnd & Hk & Hl & Hrr).
  cbn [max_rec truthy negb rightmost].
  read_field Hnd.
  destruct r as [|rl rb rk rr].
  - cbn in Hrr. rewrite Hrr. cbn [truthy negb rightmost].
    rewrite (getf_node _ _ _ _ Hnd). cbn. now rewrite Hk.
  - pose proof Hrr as Hrr'. cbn in Hrr'. destruct Hrr' as (Hv & _).
    assert (Htr : truthy (right nd) = true) by now rewrite Hv.
    rewrite Htr. cbn [negb].
    read_field Hnd. apply IHr; [done|done|lia].
Qed.

Lemma max_spec s T t d :
  tree_at s T t -> t <> Leaf -> BST.max T s = Ret (VNum (rightmost t d)) s.
Proof.
  intros Ht Hne. unfold BST.max, with_fuel.
  apply max_rec_spec; [apply Ht|done|eapply height_lt_fuel; eauto].
Qed.

(** The first and the last node of a non-empty tree hold the keys [min]
    and [max] return. *)
Lemma inorder_first t d :
  t <> Leaf ->
  exists b rest krest, locs t = b :: rest /\ keys t = leftmost t d :: krest.
Proof.
  revert d. induction t as [|l IHl b k r _]; intros d Hne; [done|].
  cbn. destruct l as [|ll lb lk lr].
  - cbn. eauto.
  - destruct (IHl k) as (c & rest & krest & -> & ->); [done|]. cbn. eauto.
Qed.

Lemma inorder_last t d :
  t <> Leaf ->
  exists b rest krest, locs t = rest ++ [b] /\ keys t = krest ++ [rightmost t d].
Proof.
  revert d. induction t as [|l _ b k r IHr]; intros d Hne; [done|].
  cbn. destruct r as [|rl rb rk rr].
  - cbn. eauto.
  - destruct (IHr k) as (c & rest & krest & -> & ->); [done|].
    exists c, (locs l ++ b :: rest), (keys l ++ k :: krest).
    now rewrite <- !app_assoc.
Qed.

Lemma sorted_last_max (l : list Z) hi :
  StronglySorted Z.le l -> last l = Some hi -> forall k, k ∈ l -> k <= hi.
Proof.
  induction 1 as [|y l Hs IH Hall]; intros Hlast k Hk; [inversion Hk|].
  rewrite last_cons in Hlast. destruct (last l) as [z|] eqn:Hz.
  - injection Hlast as ->. apply elem_of_cons in Hk as [->|Hk]; [|now apply IH].
    rewrite Forall_forall in Hall. apply Hall.
    apply last_Some in Hz as [l' ->]. apply elem_of_app. right.
    apply elem_of_cons. now left.
  - injection Hlast as ->. destruct l as [|z l].
    + apply elem_of_cons in Hk as [->|Hk]; [lia|inversion Hk].
    + rewrite last_cons in Hz. destruct (last l); discriminate.
Qed.

(** X6. [min] returns the first key of the in-order sequence of the tree
    and [max] the last one, and both return [null] on the empty tree; in a
    tree built by [insert] these are the smallest and the largest key. *)
Theorem min_max_ends (s : store) (T : val) (t : tree) :
  tree_at s T t ->
  BST.min T s = Ret (from_option VNum VNull (head (keys t))) s /\
  BST.max T s = Ret (from_option VNum VNull (last (keys t))) s /\
  (ordered t -> forall lo hi,
     head (keys t) = Some lo -> last (keys t) = Some hi ->
     forall k, k ∈ keys t -> lo <= k <= hi).
Proof.
  intros Ht. split_and!.
  - destruct t as [|l b k r].
    + destruct Ht as [Hr _]. cbn in Hr. now subst T.
    + rewrite (min_spec s T _ 0 Ht) by done.
      destruct (inorder_first (Bin l b k r) 0) as (c & rest & krest & _ & ->);
        done.
  - destruct t as [|l b k r].
    + destruct Ht as [Hr _]. cbn in Hr. now subst T.
    + rewrite (max_spec s T _ 0 Ht) by done.
      destruct (inorder_last (Bin l b k r) 0) as (c & rest & krest & _ & ->);
        [done|]. now rewrite last_snoc.
  - intros Ho lo hi Hlo Hhi k Hk. pose proof (ordered_sorted t Ho) as Hs. split.
    + destruct (keys t) as [|y ys]; [inversion Hk|]. injection Hlo as ->.
      apply StronglySorted_inv in Hs as [_ Hall]. rewrite Forall_forall in Hall.
      apply elem_of_cons in Hk as [->|Hk]; [lia|auto].
    + eapply sorted_last_max; eauto.
Qed.

Lemma min_max_ends_witness :
  BST.min (VNode 0) example_store =
    Ret (from_option VNum VNull (head (keys example_shape))) example_store /\
  BST.max (VNode 0) example_store =
    Ret (from_option VNum VNull (last (keys example_shape))) example_store /\
  (ordered example_shape -> forall lo hi,
     head (keys example_shape) = Some lo -> last (keys example_shape) = Some hi ->
     forall k, k ∈ keys example_shape -> lo <= k <= hi).
Proof.
  exact (min_max_ends example_store (VNode 0) example_shape example_tree_at).
Defined.

(** ** Nodes with a subtree to descend into *)

Lemma pred_left_child s a nd l d :
  nodes s !! a = Some nd -> tree_at s (left nd) l -> l <> Leaf ->
  pred (VNode a) s = Ret (VNum (rightmost l d)) s.
Proof.
  intros Hnd Hl Hne. unfold pred.
  assert (Htl : truthy (left nd) = true).
  { destruct l; [done|]. destruct Hl as [(-> & _) _]. done. }
  read_field Hnd. rewrite Htl. read_field Hnd. now apply max_spec.
Qed.

Lemma rep_not_null h v t : rep h v t -> v <> VNull -> t <> Leaf.
Proof. intros Hr Hv ->. now apply Hv. Qed.

(** X7. [succ] of a node with a right child returns the key of the node
    that follows it in the in-order sequence, as a number and not as the
    node. *)
Theorem succ_with_right_child (s : store) (T : val) (t : tree) (a : loc)
    (nda : node) :
  tree_at s T t -> a ∈ locs t ->
  nodes s !! a = Some nda -> right nda <> VNull ->
  exists l1 l2 k1 k2 ka b m,
    key nda = VNum ka /\
    locs t = l1 ++ a :: b :: l2 /\ keys t = k1 ++ ka :: m :: k2 /\
    length l1 = length k1 /\
    succ (VNode a) s = Ret (VNum m) s.
Proof.
  intros [Hr Hnd] Hin Ha Hra.
  destruct (locate _ a nda t T Hr Hnd Hin Ha) as
    (la & ra & ka & l1 & l2 & k1 & k2 & Hka & Hla & Hrra & Hnla & Hnra & Hlo & Hke & Hlen).
  pose proof (rep_not_null _ _ _ Hrra Hra) as Hne.
  destruct (inorder_first ra 0 Hne) as (b & rest & krest & Hb & Hm).
  exists (l1 ++ locs la), (rest ++ l2), (k1 ++ keys la), (krest ++ k2), ka, b,
         (leftmost ra 0).
  split_and!; try done.
  - now rewrite Hlo, Hb.
  - now rewrite Hke, Hm.
  - rewrite !length_app, length_locs_keys. lia.
  - now apply (succ_right_child s a nda ra 0).
Qed.

Lemma succ_with_right_child_witness :
  exists l1 l2 k1 k2 ka b m,
    key (mkNode (VNum 8) (VNode 4) (VNode 5) (VNode 0)) = VNum ka /\
    locs example_shape = l1 ++ 2%nat :: b :: l2 /\
    keys example_shape = k1 ++ ka :: m :: k2 /\
    length l1 = length k1 /\
    succ (VNode 2) example_store = Ret (VNum m) example_store.
Proof.
  exact (succ_with_right_child example_store (VNode 0) example_shape 2%nat
           (mkNode (VNum 8) (VNode 4) (VNode 5) (VNode 0))
           example_tree_at (bool_decide_unpack (2%nat ∈ locs example_shape) I)
           eq_refl ltac:(discriminate)).
Defined.

(** X8. [pred] of a node with a left child returns the key of the node
    that precedes it in the in-order sequence, as a number and not as the
    node. *)
Theorem pred_with_left_child (s : store) (T : val) (t : tree) (a : loc)
    (nda : node) :
  tree_at s T t -> a ∈ locs t ->
  nodes s !! a = Some nda -> left nda <> VNull ->
  exists l1 l2 k1 k2 ka b m,
    key nda = VNum ka /\
    locs t = l1 ++ b :: a :: l2 /\ keys t = k1 ++ m :: ka :: k2 /\
    length l1 = length k1 /\
    pred (VNode a) s = Ret (VNum m) s.
Proof.
  intros [Hr Hnd] Hin Ha Hlna.
  destruct (locate _ a nda t T Hr Hnd Hin Ha) as
    (la & ra & ka & l1 & l2 & k1 & k2 & Hka & Hla & Hrra & Hnla & Hnra & Hlo & Hke & Hlen).
  pose proof (rep_not_null _ _ _ Hla Hlna) as Hne.
  destruct (inorder_last la 0 Hne) as (b & rest & krest & Hb & Hm).
  exists (l1 ++ rest), (locs ra ++ l2), (k1 ++ krest), (keys ra ++ k2), ka, b,
         (rightmost la 0).
  assert (Hlens : length rest = length krest).
  { pose proof (length_locs_keys la) as Hll. rewrite Hb, Hm in Hll.
    rewrite !length_app in Hll. cbn in Hll. lia. }
  split_and!; try done.
  - rewrite Hlo, Hb. repeat (rewrite <- app_assoc; cbn). done.
  - rewrite Hke, Hm. repeat (rewrite <- app_assoc; cbn). done.
  - rewrite !length_app. lia.
  - now apply (pred_left_child s a nda la 0).
Qed.

Lemma pred_with_left_child_witness :
  exists l1 l2 k1 k2 ka b m,
    key (mkNode (VNum 8) (VNode 4) (VNode 5) (VNode 0)) = VNum ka /\
    locs example_shape = l1 ++ b :: 2%nat :: l2 /\
    keys example_shape = k1 ++ m :: ka :: k2 /\
    length l1 = length k1 /\
    pred (VNode 2) example_store = Ret (VNum m) example_store.
Proof.
  exact (pred_with_left_child example_store (VNode 0) example_shape 2%nat
           (mkNode (VNum 8) (VNode 4) (VNode 5) (VNode 0))
           example_tree_at (bool_decide_unpack (2%nat ∈ locs example_shape) I)
           eq_refl ltac:(discriminate)).
Defined.

(** X9. [deleteNode] on a node with two children never returns: it
    stores [undefined] as the key of the node, changes nothing else and
    throws a TypeError. *)
Theorem deleteNode_with_two_children (s : store) (T : val) (t : tree)
    (a : loc) (nda : node) :
  tree_at s T t -> a ∈ locs t ->
  nodes s !! a = Some nda -> left nda <> VNull -> right nda <> VNull ->
  deleteNode T (VNode a) s =
  Throw TypeError (mkStore (<[a := upd Key VUndef nda]> (nodes s)) (arrays s)).
Proof.
  intros [Hr Hnd] Hin Ha Hlna Hrna.
  destruct (locate _ a nda t T Hr Hnd Hin Ha) as
    (la & ra & ka & l1 & l2 & k1 & k2 & Hka & Hla & Hrra & Hnla & Hnra & _).
  apply deleteNode_two_children with (l := la) (r := ra); try done.
  - eapply rep_not_null; eauto.
  - eapply rep_not_null; eauto.
Qed.

Lemma deleteNode_with_two_children_witness :
  deleteNode (VNode 0) (VNode 2) example_store =
  Throw TypeError
    (mkStore (<[2%nat := upd Key VUndef (mkNode (VNum 8) (VNode 4) (VNode 5) (VNode 0))]>
                (nodes example_store))
             (arrays example_store)).
Proof.
  exact (deleteNode_with_two_children example_store (VNode 0) example_shape
           2%nat (mkNode (VNum 8) (VNode 4) (VNode 5) (VNode 0))
           example_tree_at (bool_decide_unpack (2%nat ∈ locs example_shape) I)
           eq_refl ltac:(discriminate) ltac:(discriminate)).
Defined.

(** ** inOrderWalk with any visitor *)

Lemma inOrderWalk_rec_fold {A} (f : val -> A -> A) t : forall fuel s T acc,
  rep (nodes s) T t -> (height t < fuel)%nat ->
  inOrderWalk_rec fuel T (Callable f) acc s =
  Ret (fold_left (fun acc k => f k acc) (map VNum (keys t)) acc) s.
Proof.
  induction t as [|l IHl b k r IHr]; intros fuel s T acc Hr Hf;
    (destruct fuel as [|fuel]; [lia|]); cbn in Hr.
  - subst T. reflexivity.
  - destruct Hr as (-> & nd & Hnd & Hk & Hl & Hrr). cbn in Hf.
    cbn [inOrderWalk_rec truthy isFunction negb].
    read_field Hnd.
    erewrite bind_Ret by (apply IHl; [exact Hl | lia]).
    read_field Hnd.
    erewrite bind_Ret by reflexivity.
    read_field Hnd.
    rewrite IHr; [|exact Hrr|lia].
    rewrite Hk. cbn [keys]. now rewrite map_app, fold_left_app.
Qed.

(** X10. [inOrderWalk] calls the visitor once on every key of the tree,
    from the first to the last of the in-order sequence, and leaves the
    store as it is; with a second argument that is not a function it
    throws a TypeError whatever the first argument is, also on the empty
    tree. *)
Theorem inOrderWalk_visits_in_order (s : store) (T : val) (t : tree)
    (A : Type) (f : val -> A -> A) (acc : A) :
  tree_at s T t ->
  inOrderWalk T (Callable f) acc s =
    Ret (fold_left (fun acc k => f k acc) (map VNum (keys t)) acc) s /\
  forall T' : val, inOrderWalk T' NotCallable acc s = Throw TypeError s.
Proof.
  intros Ht. split; [|reflexivity].
  unfold inOrderWalk, with_fuel.
  apply inOrderWalk_rec_fold; [apply Ht|eapply height_lt_fuel; eauto].
Qed.

Lemma inOrderWalk_visits_in_order_witness :
  inOrderWalk (VNode 0) (Callable (fun k n => S n)) O example_store =
    Ret (fold_left (fun acc k => S acc) (map VNum (keys example_shape)) O)
        example_store /\
  forall T' : val, inOrderWalk T' NotCallable O example_store =
                   Throw TypeError example_store.
Proof.
  exact (inOrderWalk_visits_in_order example_store (VNode 0) example_shape
           nat (fun k n => S n) O example_tree_at).
Defined.

(** ** lookup after insert and after deleteValue *)

Lemma lookup_find s T t x :
  tree_at s T t -> BST.lookup T x s = Ret (find t x) s.
Proof.
  intros Ht. unfold BST.lookup, with_fuel.
  apply lookup_rec_spec; [apply Ht|eapply height_lt_fuel; eauto].
Qed.

Lemma find_ins_same t x k : find (ins t x k) (VNum k) <> VNull.
Proof.
  induction t as [|l IHl b k' r IHr]; cbn [ins find].
  - rewrite js_seq_num, bool_decide_eq_true_2 by done. done.
  - destruct (k <? k') eqn:Hlt; cbn [find]; rewrite js_seq_num, js_lt_num, Hlt;
      case_bool_decide; done.
Qed.

Lemma find_ins_other t x k j :
  j <> k -> find (ins t x k) (VNum j) = find t (VNum j).
Proof.
  intros Hne. induction t as [|l IHl b k' r IHr]; cbn [ins find].
  - rewrite js_seq_num, bool_decide_eq_false_2 by congruence.
    now destruct (js_lt (VNum j) (VNum k)).
  - destruct (k <? k'); cbn [find]; rewrite js_seq_num; case_bool_decide;
      try done; destruct (js_lt (VNum j) (VNum k')); done.
Qed.

(** X11. After [insert] of a number, [lookup] of that number returns a
    node that holds it, and [lookup] of any other number returns what it
    returned before. *)
Theorem lookup_after_insert (s : store) (T : val) (t : tree) (k : Z) :
  tree_at s T t ->
  exists T' s',
    insert T (VNum k) s = Ret T' s' /\
    (exists b nd,
       BST.lookup T' (VNum k) s' = Ret (VNode b) s' /\
       nodes s' !! b = Some nd /\ key nd = VNum k) /\
    (forall j, j <> k ->
       exists r, BST.lookup T (VNum j) s = Ret r s /\
                 BST.lookup T' (VNum j) s' = Ret r s').
Proof.
  intros Ht.
  destruct (insert_spec s T t k Ht) as (T' & s' & Hins & Ht' & _).
  exists T', s'. split_and!; [done| |].
  - rewrite (lookup_find _ _ _ _ Ht').
    destruct Ht' as [Hr' _].
    destruct (find_result _ _ _ (VNum k) Hr') as [Hnull|(b & nd & Hf & _ & Hb & Hk)].
    + now apply find_ins_same in Hnull.
    + exists b, nd. now rewrite Hf.
  - intros j Hj. exists (find t (VNum j)).
    rewrite (lookup_find _ _ _ _ Ht), (lookup_find _ _ _ _ Ht').
    now rewrite find_ins_other.
Qed.

Lemma lookup_after_insert_witness :
  exists T' s',
    insert (VNode 0) (VNum 5) example_store = Ret T' s' /\
    (exists b nd,
       BST.lookup T' (VNum 5) s' = Ret (VNode b) s' /\
       nodes s' !! b = Some nd /\ key nd = VNum 5) /\
    (forall j, j <> 5 ->
       exists r, BST.lookup (VNode 0) (VNum j) example_store = Ret r example_store /\
                 BST.lookup T' (VNum j) s' = Ret r s').
Proof.
  exact (lookup_after_insert example_store (VNode 0) example_shape 5
           example_tree_at).
Defined.

Lemma bst_ordered t : bst t -> ordered t.
Proof.
  induction t as [|l IHl b k r IHr]; cbn; [done|].
  intros (Hl & Hr & Hbl & Hbr). split_and!; auto.
  eapply Forall_impl; [exact Hr|]. cbn. lia.
Qed.

(** X12. After [deleteValue] of a number from a tree that satisfies the
    invariant, [lookup] of that number in the result returns [null], and
    [lookup] of any other number finds a node in the result exactly when
    it found one in the tree given. *)
Theorem lookup_after_deleteValue (s : store) (T : val) (t : tree) (k : Z) :
  tree_at s T t -> bst t ->
  exists T' s',
    deleteValue T (VNum k) s = Ret T' s' /\
    BST.lookup T' (VNum k) s' = Ret VNull s' /\
    (forall j, j <> k ->
       exists r r', BST.lookup T (VNum j) s = Ret r s /\
                    BST.lookup T' (VNum j) s' = Ret r' s' /\
                    (r = VNull <-> r' = VNull)).
Proof.
  intros Ht Hb.
  destruct (deleteValue_rec_spec t k (S (length (nodes s))) s T Ht Hb) as
    (T' & new & t' & Hdel & Ht' & _ & Hkeys).
  { eapply height_lt_fuel; eauto. }
  assert (Ho' : ordered t').
  { apply bst_ordered, sorted_bst. rewrite Hkeys.
    now apply sorted_filter, bst_sorted. }
  eexists _, _. split; [exact Hdel|]. split.
  - rewrite (lookup_find _ _ _ _ Ht'). f_equal. apply find_absent; [done|].
    rewrite Hkeys. intros Hin. apply list_elem_of_filter in Hin as [Hne _]. done.
  - intros j Hj. exists (find t (VNum j)), (find t' (VNum j)).
    rewrite (lookup_find _ _ _ _ Ht), (lookup_find _ _ _ _ Ht').
    split_and!; try done.
    rewrite (find_absent t j) by now apply bst_ordered.
    rewrite (find_absent t' j) by done.
    rewrite Hkeys, list_elem_of_filter. tauto.
Qed.

Lemma lookup_after_deleteValue_witness :
  exists T' s',
    deleteValue (VNode 0) (VNum 8) example_store = Ret T' s' /\
    BST.lookup T' (VNum 8) s' = Ret VNull s' /\
    (forall j, j <> 8 ->
       exists r r', BST.lookup (VNode 0) (VNum j) example_store = Ret r example_store /\
                    BST.lookup T' (VNum j) s' = Ret r' s' /\
                    (r = VNull <-> r' = VNull)).
Proof.
  exact (lookup_after_deleteValue example_store (VNode 0) example_shape 8
           example_tree_at example_bst).
Defined.

(** X13. [deleteValue] writes no existing object: the store it returns is
    the old one with new node objects appended, so the tree given is still
    a tree of the new store with the same in-order sequence, and the
    arrays are as they were. *)
Theorem deleteValue_keeps_old_tree (s : store) (T : val) (t : tree) (k : Z) :
  tree_at s T t -> bst t ->
  exists T' s' new,
    deleteValue T (VNum k) s = Ret T' s' /\
    nodes s' = nodes s ++ new /\ arrays s' = arrays s /\
    tree_at s' T t /\
    toList T s' = Ret (map VNum (keys t)) s'.
Proof.
  intros Ht Hb.
  destruct (deleteValue_rec_spec t k (S (length (nodes s))) s T Ht Hb) as
    (T' & new & t' & Hdel & Ht' & _ & Hkeys).
  { eapply height_lt_fuel; eauto. }
  exists T', (mkStore (nodes s ++ new) (arrays s)), new.
  assert (Hold : tree_at (mkStore (nodes s ++ new) (arrays s)) T t)
    by now apply tree_at_app.
  split_and!; try done. now apply toList_spec.
Qed.

Lemma deleteValue_keeps_old_tree_witness :
  exists T' s' new,
    deleteValue (VNode 0) (VNum 8) example_store = Ret T' s' /\
    nodes s' = nodes example_store ++ new /\ arrays s' = arrays example_store /\
    tree_at s' (VNode 0) example_shape /\
    toList (VNode 0) s' = Ret (map VNum (keys example_shape)) s'.
Proof.
  exact (deleteValue_keeps_old_tree example_store (VNode 0) example_shape 8
           example_tree_at example_bst).
Defined.

(** ** Node.prototype.delete *)

Lemma Node_delete_rec_spec t : forall fuel s T,
  rep (nodes s) T t -> NoDup (locs t) -> t <> Leaf -> (height t <= fuel)%nat ->
  exists h',
    Node_delete_rec fuel T s = Ret tt (mkStore h' (arrays s)) /\
    length h' = length (nodes s) /\
    forall b nd, nodes s !! b = Some nd ->
      h' !! b = Some (if decide (b ∈ locs t) then cleared nd else nd).
Proof.
  induction t as [|l IHl a k r IHr]; intros fuel s T Hr Hnd Hne Hf; [done|].
  destruct fuel as [|fuel]; [cbn in Hf; lia|]. cbn in Hr, Hnd, Hf.
  destruct Hr as (-> & nd & Ha & Hk & Hl & Hrr).
  apply NoDup_app in Hnd as (Hndl & Hlr & Hndr).
  apply NoDup_cons in Hndr as (Har & Hndr).
  assert (Hal : a ∉ locs l).
  { intros Hx. apply (Hlr a Hx). apply elem_of_cons. now left. }
  cbn [Node_delete_rec]. read_field Ha.
  (* the left subtree *)
  assert (exists h1,
    (if truthy (left nd)
     then let* l' := getf Left (VNode a) in Node_delete_rec fuel l'
     else ret tt) s = Ret tt (mkStore h1 (arrays s)) /\
    length h1 = length (nodes s) /\
    forall b ndb, nodes s !! b = Some ndb ->
      h1 !! b = Some (if decide (b ∈ locs l) then cleared ndb else ndb))
    as (h1 & Hrun1 & Hlen1 & Hh1).
  { destruct l as [|ll lb lk lr].
    - cbn in Hl. rewrite Hl. cbn [truthy]. exists (nodes s).
      split_and!; [now destruct s|done|]. intros b ndb Hb.
      rewrite decide_False; [done|]. cbn. intros Hx. inversion Hx.
    - pose proof Hl as [Hv _].
      assert (Htl : truthy (left nd) = true) by now rewrite Hv.
      rewrite Htl. read_field Ha. apply IHl; [done|done|done|lia]. }
  erewrite bind_Ret by exact Hrun1.
  assert (Ha1 : nodes (mkStore h1 (arrays s)) !! a = Some nd).
  { cbn. etrans; [exact (Hh1 a nd Ha)|]. now rewrite decide_False. }
  read_field Ha1.
  (* the right subtree *)
  assert (Hrr1 : rep h1 (right nd) r).
  { eapply rep_frame; [exact Hrr|]. intros b Hb.
    destruct (rep_is_Some _ _ _ _ Hrr Hb) as [ndb Hndb].
    rewrite Hndb. etrans; [exact (Hh1 b ndb Hndb)|].
    rewrite decide_False; [done|].
    intros Hx. apply (Hlr b Hx). apply elem_of_cons. now right. }
  assert (exists h2,
    (if truthy (right nd)
     then let* r' := getf Right (VNode a) in Node_delete_rec fuel r'
     else ret tt) (mkStore h1 (arrays s)) = Ret tt (mkStore h2 (arrays s)) /\
    length h2 = length h1 /\
    forall b ndb, h1 !! b = Some ndb ->
      h2 !! b = Some (if decide (b ∈ locs r) then cleared ndb else ndb))
    as (h2 & Hrun2 & Hlen2 & Hh2).
  { destruct r as [|rl rb rk rr].
    - cbn in Hrr. rewrite Hrr. cbn [truthy]. exists h1.
      split_and!; [done|done|]. intros b ndb Hb.
      rewrite decide_False; [done|]. cbn. intros Hx. inversion Hx.
    - pose proof Hrr as [Hv _].
      assert (Htr : truthy (right nd) = true) by now rewrite Hv.
      rewrite Htr. read_field Ha1.
      apply (IHr fuel (mkStore h1 (arrays s))); [done|done|done|lia]. }
  erewrite bind_Ret by exact Hrun2.
  assert (Ha2 : h2 !! a = Some nd).
  { etrans; [exact (Hh2 a nd Ha1)|]. now rewrite decide_False. }
  (* the node itself *)
  erewrite bind_Ret by (apply setf_node; exact Ha2). cbn [nodes arrays].
  erewrite bind_Ret; cycle 1.
  { apply setf_node. cbn [nodes]. apply list_lookup_insert_eq.
    eapply lookup_lt_Some; eauto. }
  cbn [nodes arrays]. erewrite setf_node; cycle 1.
  { cbn [nodes]. apply list_lookup_insert_eq. rewrite length_insert.
    eapply lookup_lt_Some; eauto. }
  cbn [nodes arrays upd key left right parent].
  eexists. split; [reflexivity|]. split.
  - rewrite !length_insert. congruence.
  - intros b ndb Hb. rewrite !list_insert_insert_eq.
    destruct (decide (b = a)) as [->|Hba].
    + assert (ndb = nd) as -> by (unfold loc in *; congruence).
      rewrite list_lookup_insert_eq by (eapply lookup_lt_Some; eauto).
      rewrite decide_True; [done|].
      apply elem_of_app. right. apply elem_of_cons. now left.
    + rewrite list_lookup_insert_ne by done.
      etrans; [exact (Hh2 b _ (Hh1 b ndb Hb))|].
      destruct (decide (b ∈ locs l)) as [Hbl|Hbl].
      * rewrite decide_False by (intros Hx; apply (Hlr b Hbl);
                                 apply elem_of_cons; now right).
        rewrite decide_True; [done|]. apply elem_of_app. now left.
      * destruct (decide (b ∈ locs r)) as [Hbr|Hbr].
        -- rewrite decide_True; [done|]. apply elem_of_app. right.
           apply elem_of_cons. now right.
        -- rewrite decide_False; [done|]. intros Hx.
           apply elem_of_app in Hx as [?|Hx]; [done|].
           apply elem_of_cons in Hx as [?|?]; done.
Qed.

(** X14. [delete] called on the root of a tree returns normally; it sets
    the key and both children of every node of the tree to [undefined],
    keeps the [parent] fields and writes no other object; after it
    [toList] of the former root gives one [undefined]. *)
Theorem Node_delete_clears_tree (s : store) (a : loc) (t : tree) :
  tree_at s (VNode a) t ->
  exists s',
    Node_delete (VNode a) s = Ret tt s' /\
    length (nodes s') = length (nodes s) /\ arrays s' = arrays s /\
    (forall b nd, nodes s !! b = Some nd ->
       nodes s' !! b = Some (if decide (b ∈ locs t) then cleared nd else nd)) /\
    toList (VNode a) s' = Ret [VUndef] s'.
Proof.
  intros Ht. pose proof (height_lt_fuel _ _ _ Ht) as Hf.
  destruct Ht as [Hr Hnd].
  assert (Hne : t <> Leaf) by (intros ->; done).
  destruct (Node_delete_rec_spec t (S (length (nodes s))) s (VNode a) Hr Hnd Hne)
    as (h' & Hrun & Hlen & Hh'); [lia|].
  exists (mkStore h' (arrays s)). split_and!; try done.
  pose proof (rep_root _ _ _ Hr) as Hin.
  destruct (rep_is_Some _ _ _ _ Hr Hin) as [nd Ha].
  assert (Ha' : nodes (mkStore h' (arrays s)) !! a = Some (cleared nd)).
  { cbn. etrans; [exact (Hh' a nd Ha)|]. now rewrite decide_True. }
  unfold toList, with_fuel. cbn [nodes]. rewrite Hlen.
  destruct (length (nodes s)) as [|n] eqn:Hn.
  { apply lookup_lt_Some in Ha. lia. }
  cbn [toList_rec truthy negb].
  read_field Ha'. cbn [cleared left]. erewrite bind_Ret by reflexivity.
  read_field Ha'. read_field Ha'. reflexivity.
Qed.

Lemma Node_delete_clears_tree_witness :
  exists s',
    Node_delete (VNode 0) example_store = Ret tt s' /\
    length (nodes s') = length (nodes example_store) /\
    arrays s' = arrays example_store /\
    (forall b nd, nodes example_store !! b = Some nd ->
       nodes s' !! b =
         Some (if decide (b ∈ locs example_shape) then cleared nd else nd)) /\
    toList (VNode 0) s' = Ret [VUndef] s'.
Proof.
  exact (Node_delete_clears_tree example_store 0%nat example_shape
           example_tree_at).
Defined.

(** ** Where insert puts a key *)

Lemma ins_position t x k :
  ordered t ->
  exists k1 k2,
    keys t = k1 ++ k2 /\ keys (ins t x k) = k1 ++ k :: k2 /\
    Forall (fun y => y <= k) k1 /\ Forall (fun y => k < y) k2.
Proof.
  induction t as [|l IHl b k' r IHr]; cbn [ordered keys ins].
  - intros _. exists [], []. split_and!; done.
  - intros (Hl & Hr & Hol & Hor). destruct (k <? k') eqn:Hlt; cbn [keys].
    + apply Z.ltb_lt in Hlt.
      destruct (IHl Hol) as (k1 & k2 & -> & -> & H1 & H2).
      exists k1, (k2 ++ k' :: keys r). split_and!.
      * now rewrite <- app_assoc.
      * now rewrite <- app_assoc.
      * done.
      * apply Forall_app. split; [done|]. constructor; [done|].
        eapply Forall_impl; [exact Hr|]. cbn. lia.
    + apply Z.ltb_ge in Hlt.
      destruct (IHr Hor) as (k1 & k2 & -> & -> & H1 & H2).
      exists (keys l ++ k' :: k1), k2. split_and!.
      * now rewrite <- app_assoc.
      * now rewrite <- app_assoc.
      * apply Forall_app. split.
        -- eapply Forall_impl; [exact Hl|]. cbn. lia.
        -- now constructor.
      * done.
Qed.

(** X15. [insert] of a number into a tree built by [insert] adds it once
    to the in-order sequence, after every key that is smaller or equal and
    before every key that is larger; a key that is already there is not
    rejected, the new node comes after the old ones. *)
Theorem insert_position (s : store) (T : val) (t : tree) (k : Z) :
  tree_at s T t -> ordered t ->
  exists T' s' k1 k2,
    insert T (VNum k) s = Ret T' s' /\
    toList T s = Ret (map VNum (k1 ++ k2)) s /\
    toList T' s' = Ret (map VNum (k1 ++ k :: k2)) s' /\
    Forall (fun y => y <= k) k1 /\ Forall (fun y => k < y) k2.
Proof.
  intros Ht Ho.
  destruct (insert_spec s T t k Ht) as (T' & s' & Hins & Ht' & _).
  destruct (ins_position t (length (nodes s)) k Ho) as (k1 & k2 & Hk & Hk' & H1 & H2).
  exists T', s', k1, k2. split_and!; try done.
  - rewrite (toList_spec _ _ _ Ht). now rewrite Hk.
  - rewrite (toList_spec _ _ _ Ht'). now rewrite Hk'.
Qed.

Lemma example_ordered : ordered example_shape.
Proof. apply bst_ordered, example_bst. Defined.

Lemma insert_position_witness :
  exists T' s' k1 k2,
    insert (VNode 0) (VNum 8) example_store = Ret T' s' /\
    toList (VNode 0) example_store = Ret (map VNum (k1 ++ k2)) example_store /\
    toList T' s' = Ret (map VNum (k1 ++ 8 :: k2)) s' /\
    Forall (fun y => y <= 8) k1 /\ Forall (fun y => 8 < y) k2.
Proof.
  exact (insert_position example_store (VNode 0) example_shape 8
           example_tree_at example_ordered).
Defined.

(** * wordcount *)

Import WordCount.

Lemma loop_word w : forall rest word dict,
  Forall (fun c => is_space c = false) w ->
  wordcount_loop (w ++ rest) word dict = wordcount_loop rest (word ++ w) dict.
Proof.
  induction w as [|c w IH]; intros rest word dict Hw; cbn.
  - now rewrite app_nil_r.
  - apply Forall_cons in Hw as [Hc Hw]. rewrite Hc, IH by done.
    now rewrite <- app_assoc.
Qed.

Lemma loop_spaces sep : forall rest dict,
  Forall (fun c => is_space c = true) sep ->
  wordcount_loop (sep ++ rest) [] dict = wordcount_loop rest [] dict.
Proof.
  induction sep as [|c sep IH]; intros rest dict Hs; cbn; [done|].
  apply Forall_cons in Hs as [Hc Hs]. rewrite Hc. cbn. now apply IH.
Qed.

(** One word and the white space after it. *)
Lemma loop_word_sep w sep rest dict :
  w <> [] -> Forall (fun c => is_space c = false) w ->
  sep <> [] -> Forall (fun c => is_space c = true) sep ->
  wordcount_loop ((w ++ sep) ++ rest) [] dict =
  wordcount_loop rest [] (bump w dict).
Proof.
  intros Hne Hw Hsne Hs. rewrite <- app_assoc, loop_word by done. cbn [app].
  destruct sep as [|c sep]; [done|]. apply Forall_cons in Hs as [Hc Hs].
  cbn [app wordcount_loop]. rewrite Hc.
  destruct w as [|c' w]; [done|]. cbn [length Nat.eqb negb].
  now apply loop_spaces.
Qed.

Lemma loop_words sep ws : forall rest dict,
  Forall (fun w => w <> [] /\ Forall (fun c => is_space c = false) w) ws ->
  sep <> [] -> Forall (fun c => is_space c = true) sep ->
  wordcount_loop (concat (map (fun w => w ++ sep) ws) ++ rest) [] dict =
  wordcount_loop rest [] (fold_left (fun d w => bump w d) ws dict).
Proof.
  induction ws as [|w ws IH]; intros rest dict Hws Hsne Hs; cbn; [done|].
  apply Forall_cons in Hws as [[Hne Hw] Hws].
  rewrite <- (app_assoc (w ++ sep)), loop_word_sep by done.
  now apply IH.
Qed.

Lemma loop_trailing text : forall w word dict,
  Forall (fun c => is_space c = false) w ->
  wordcount_loop (text ++ w) word dict = wordcount_loop text word dict.
Proof.
  induction text as [|c text IH]; intros w word dict Hw; cbn [app].
  - rewrite <- (app_nil_r w), loop_word by done. done.
  - cbn. destruct (is_space c); [destruct (negb _)|]; now apply IH.
Qed.

(** X16. [wordcount] only counts a word when white space follows it:
    characters after the last white space of the text change nothing, so
    a text without white space, like the empty text, gives the empty
    string. *)
Theorem wordcount_drops_last_word (text w : list code) :
  Forall (fun c => is_space c = false) w ->
  wordcount (text ++ w) = wordcount text /\ wordcount w = [].
Proof.
  intros Hw. unfold wordcount. split.
  - now rewrite loop_trailing.
  - now rewrite <- (app_nil_l w), loop_trailing.
Qed.

Lemma wordcount_drops_last_word_witness :
  wordcount ([97; 32] ++ [98; 99])%N = wordcount [97; 32]%N /\
  wordcount [98; 99]%N = [].
Proof.
  apply (wordcount_drops_last_word [97; 32]%N [98; 99]%N).
  repeat constructor.
Defined.

(** ** The map after a text of whole words *)

Lemma dict_get_set w' w v d :
  dict_get w' (dict_set w v d) =
  if decide (w' = w) then Some v else dict_get w' d.
Proof.
  induction d as [|[u n] d IH]; cbn.
  - destruct (decide (w = w')), (decide (w' = w)); congruence.
  - destruct (decide (u = w)) as [->|Hne]; cbn.
    + destruct (decide (w = w')), (decide (w' = w)); congruence.
    + destruct (decide (u = w')) as [->|Hne'].
      * now rewrite decide_False.
      * exact IH.
Qed.

Lemma keys_set w v d :
  (dict_set w v d).*1 = if decide (w ∈ d.*1) then d.*1 else d.*1 ++ [w].
Proof.
  induction d as [|[u n] d IH]; cbn.
  - rewrite decide_False; [done|]. intros H. inversion H.
  - destruct (decide (u = w)) as [->|Hne]; cbn.
    + rewrite decide_True; [done|]. apply elem_of_cons. now left.
    + rewrite IH. destruct (decide (w ∈ d.*1)) as [Hin|Hin].
      * rewrite decide_True; [done|]. apply elem_of_cons. now right.
      * rewrite decide_False; [done|]. intros Hx.
        apply elem_of_cons in Hx as [->|Hx]; done.
Qed.

Lemma count_bump d w w' :
  count_of (bump w d) w' =
  if decide (w' = w) then S (count_of d w) else count_of d w'.
Proof.
  unfold count_of, bump. rewrite dict_get_set.
  destruct (decide (w' = w)); [|done]. cbn.
  destruct (dict_get w d) as [v|]; cbn; [|done].
  destruct v; cbn; [done|]. lia.
Qed.

Lemma fold_bump_count ws : forall d w,
  count_of (fold_left (fun d w => bump w d) ws d) w =
  (count_of d w + occurrences w ws)%nat.
Proof.
  unfold occurrences.
  induction ws as [|u ws IH]; intros d w; cbn [fold_left]; [cbn; lia|].
  rewrite IH, count_bump, filter_cons.
  destruct (decide (w = u)) as [->|Hne].
  - rewrite decide_True by done. cbn. lia.
  - rewrite decide_False by congruence. done.
Qed.

Lemma fold_bump_keys ws : forall d,
  (fold_left (fun d w => bump w d) ws d).*1 =
  d.*1 ++ filter (fun w => w ∉ d.*1) (firsts ws).
Proof.
  induction ws as [|u ws IH]; intros d; cbn [fold_left firsts].
  - cbn. now rewrite app_nil_r.
  - rewrite IH.
    pose proof (keys_set u (next_count (dict_get u d)) d) as Hk.
    fold (bump u d) in Hk.
    rewrite (filter_cons (fun w => w ∉ d.*1)).
    rewrite (list_filter_filter (fun w => w ∉ d.*1) (fun w => w <> u)).
    destruct (decide (u ∈ d.*1)) as [Hin|Hin].
    + rewrite decide_False by auto.
      rewrite (list_filter_iff (fun w => w ∉ (bump u d).*1)
                 (fun w => (w ∉ d.*1) /\ w <> u)).
      * now rewrite Hk.
      * intros w. rewrite Hk. split; [|tauto].
        intros Hw. split; [done|]. intros ->. done.
    + rewrite decide_True by done.
      rewrite (list_filter_iff (fun w => w ∉ (bump u d).*1)
                 (fun w => (w ∉ d.*1) /\ w <> u)).
      * rewrite Hk, <- app_assoc. done.
      * intros w. rewrite Hk, elem_of_app, list_elem_of_singleton. tauto.
Qed.

Lemma NoDup_firsts ws : NoDup (firsts ws).
Proof.
  induction ws as [|w ws IH]; cbn; [constructor|].
  apply NoDup_cons. split.
  - intros Hin. apply list_elem_of_filter in Hin as [Hne _]. done.
  - now apply NoDup_filter.
Qed.

(** A map without repeated keys is the list of its keys with their
    counts. *)
Lemma dict_entries d :
  NoDup d.*1 -> d = map (fun w => (w, count_of d w)) d.*1.
Proof.
  induction d as [|[u n] d IH]; cbn; intros Hnd; [done|].
  apply NoDup_cons in Hnd as [Hu Hnd]. f_equal.
  - unfold count_of. cbn. now rewrite decide_True.
  - rewrite (IH Hnd) at 1. apply map_ext_in. intros w Hw. f_equal.
    unfold count_of. cbn. rewrite decide_False; [done|].
    intros ->. apply Hu. now apply list_elem_of_In.
Qed.

(** X17. On a text made of words, each one not empty, without white space
    and followed by the same non-empty run of white space, [wordcount]
    returns one line per distinct word, in the order the words first
    occur: the word, a comma, the number of its occurrences in decimal and
    a line feed. *)
Theorem wordcount_tally (ws : list (list code)) (sep : list code) :
  Forall (fun w => w <> [] /\ Forall (fun c => is_space c = false) w) ws ->
  sep <> [] -> Forall (fun c => is_space c = true) sep ->
  wordcount (concat (map (fun w => w ++ sep) ws)) =
  concat (map (fun w => w ++ [44%N] ++
                        digits (Nat.to_uint (occurrences w ws)) ++ [10%N])
              (firsts ws)).
Proof.
  intros Hws Hsne Hs. unfold wordcount.
  rewrite <- (app_nil_r (concat (map (fun w => w ++ sep) ws))).
  rewrite loop_words by done. cbn [wordcount_loop].
  set (d := fold_left (fun d w => bump w d) ws []).
  assert (Hkeys : d.*1 = firsts ws).
  { unfold d. rewrite fold_bump_keys. cbn.
    induction (firsts ws) as [|w l IHf]; [done|].
    rewrite filter_cons_True; [now rewrite IHf|]. intros Hx. inversion Hx. }
  assert (Hnd : NoDup d.*1) by (rewrite Hkeys; apply NoDup_firsts).
  rewrite (dict_entries d Hnd), Hkeys, map_map. f_equal.
  apply map_ext. intros w. unfold line. cbn [fst snd].
  unfold d. now rewrite fold_bump_count.
Qed.

Lemma wordcount_tally_witness :
  wordcount (concat (map (fun w => w ++ [32%N]) [[97]; [98]; [97]]%N)) =
  concat (map (fun w => w ++ [44%N] ++
                 digits (Nat.to_uint (occurrences w [[97]; [98]; [97]]%N)) ++
                 [10%N])
              (firsts [[97]; [98]; [97]]%N)).
Proof.
  apply (wordcount_tally [[97]; [98]; [97]]%N [32%N]).
  - repeat constructor; discriminate.
  - discriminate.
  - repeat constructor.
Defined.

(** * What the functions never write *)

Section ReadOnly.

Context {A B : Type}.

Lemma read_only_ret (v : A) : read_only (ret v).
Proof. now intros s. Qed.

Lemma read_only_throw e : read_only (@throw A e).
Proof. now intros s. Qed.

Lemma read_only_fail f : read_only (@fail A f).
Proof. now intros s. Qed.

Lemma read_only_bind (m : M A) (k : A -> M B) :
  read_only m -> (forall v, read_only (k v)) -> read_only (bind m k).
Proof.
  intros Hm Hk s. unfold bind. specialize (Hm s).
  destruct (m s) as [v s'|e s'|f]; [subst s'; apply Hk|done|done].
Qed.

Lemma read_only_with_fuel (f : nat -> M A) :
  (forall fuel, read_only (f fuel)) -> read_only (with_fuel f).
Proof. intros Hf s. apply Hf. Qed.

End ReadOnly.

Lemma read_only_getf f o : read_only (getf f o).
Proof.
  intros s. unfold getf. destruct o; try done. now destruct (nodes s !! a).
Qed.

(** One step through a computation built from reads. *)
Ltac read_only_step :=
  first
    [ assumption
    | apply read_only_ret
    | apply read_only_throw
    | apply read_only_fail
    | apply read_only_getf
    | apply read_only_bind; [|intros ?]
    | match goal with
      | |- read_only (if ?b then _ else _) => destruct b
      | |- read_only (match ?x with _ => _ end) => destruct x
      end ].

Lemma read_only_toList_rec fuel : forall T, read_only (toList_rec fuel T).
Proof.
  induction fuel as [|fuel IH]; intros T; cbn [toList_rec];
    repeat first [apply IH | read_only_step].
Qed.

Lemma read_only_inOrderWalk_rec {A} (fn : visitor A) fuel : forall T acc,
  read_only (inOrderWalk_rec fuel T fn acc).
Proof.
  induction fuel as [|fuel IH]; intros T acc; cbn [inOrderWalk_rec];
    unfold call; repeat first [apply IH | read_only_step].
Qed.

Lemma read_only_lookup_rec x fuel : forall T, read_only (lookup_rec fuel T x).
Proof.
  induction fuel as [|fuel IH]; intros T; cbn [lookup_rec];
    repeat first [apply IH | read_only_step].
Qed.

Lemma read_only_search_loop x fuel : forall T, read_only (search_loop fuel T x).
Proof.
  induction fuel as [|fuel IH]; intros T; cbn [search_loop];
    repeat first [apply IH | read_only_step].
Qed.

Lemma read_only_min_rec fuel : forall T, read_only (min_rec fuel T).
Proof.
  induction fuel as [|fuel IH]; intros T; cbn [min_rec];
    repeat first [apply IH | read_only_step].
Qed.

Lemma read_only_max_rec fuel : forall T, read_only (max_rec fuel T).
Proof.
  induction fuel as [|fuel IH]; intros T; cbn [max_rec];
    repeat first [apply IH | read_only_step].
Qed.

Lemma read_only_succ_loop fuel : forall x p, read_only (succ_loop fuel x p).
Proof.
  induction fuel as [|fuel IH]; intros x p; cbn [succ_loop];
    repeat first [apply IH | read_only_step].
Qed.

Lemma read_only_pred_loop fuel : forall x p, read_only (pred_loop fuel x p).
Proof.
  induction fuel as [|fuel IH]; intros x p; cbn [pred_loop];
    repeat first [apply IH | read_only_step].
Qed.

Lemma read_only_min T : read_only (BST.min T).
Proof. apply read_only_with_fuel. intros fuel. apply read_only_min_rec. Qed.

(** X18. The traversals and the queries write nothing: whatever their
    arguments are, whatever fuel the recursion or the loop is given and
    however the run ends, with a result or with a TypeError, the
    recursions of [toList], [inOrderWalk] (with a visitor that keeps to
    its accumulator), [lookup], [min] and [max] and the loops of [search],
    [succ] and [pred] end in the store they started in. The arguments need
    not be trees: the walk of [toList] over the number 5, a value whose
    properties are [undefined], ends with the sequence that holds
    [undefined], in the same store. *)
Theorem queries_read_only (fuel : nat) (T x p : val) (A : Type)
    (fn : visitor A) (acc : A) (s : store) :
  read_only (toList_rec fuel T) /\
  read_only (inOrderWalk_rec fuel T fn acc) /\
  read_only (lookup_rec fuel T x) /\
  read_only (search_loop fuel T x) /\
  read_only (min_rec fuel T) /\
  read_only (max_rec fuel T) /\
  read_only (succ_loop fuel x p) /\
  read_only (pred_loop fuel x p) /\
  toList_rec (2 + fuel) (VNum 5) s = Ret [VUndef] s.
Proof.
  split_and!.
  - apply read_only_toList_rec.
  - apply read_only_inOrderWalk_rec.
  - apply read_only_lookup_rec.
  - apply read_only_search_loop.
  - apply read_only_min_rec.
  - apply read_only_max_rec.
  - apply read_only_succ_loop.
  - apply read_only_pred_loop.
  - reflexivity.
Qed.

Lemma extends_refl s : extends s s.
Proof. exists []. split; [now rewrite store_app_nil|constructor]. Qed.

Lemma extends_trans s1 s2 s3 : extends s1 s2 -> extends s2 s3 -> extends s1 s3.
Proof.
  intros (n1 & -> & H1) (n2 & -> & H2). exists (n1 ++ n2). cbn.
  split; [now rewrite app_assoc|]. now apply Forall_app.
Qed.

Lemma append_only_of_read_only {A} (m : M A) : read_only m -> append_only m.
Proof.
  intros Hm s. specialize (Hm s).
  destruct (m s); try done; subst; apply extends_refl.
Qed.

Lemma append_only_bind {A B} (m : M A) (k : A -> M B) :
  append_only m -> (forall v, append_only (k v)) -> append_only (bind m k).
Proof.
  intros Hm Hk s. unfold bind. specialize (Hm s).
  destruct (m s) as [v s'|e s'|f]; [|done|done].
  specialize (Hk v s'). destruct (k v s'); try done;
    eapply extends_trans; eauto.
Qed.

Lemma append_only_Node k l r : append_only (Node k l r).
Proof.
  intros s. unfold Node. destruct (negb (isNumber k)); [apply extends_refl|].
  eexists. split; [reflexivity|]. now constructor.
Qed.

Lemma append_only_deleteValue_rec fuel : forall T x,
  append_only (deleteValue_rec fuel T x).
Proof.
  induction fuel as [|fuel IH]; intros T x; cbn [deleteValue_rec].
  - apply append_only_of_read_only, read_only_fail.
  - repeat first
      [ apply IH
      | apply append_only_Node
      | apply append_only_of_read_only;
        first [apply read_only_ret | apply read_only_getf | apply read_only_min]
      | apply append_only_bind; [|intros ?]
      | match goal with
        | |- append_only (if ?b then _ else _) => destruct b
        end ].
Qed.

(** X19. [deleteValue] writes no object that exists: whatever its
    arguments are, whatever fuel its recursion is given and however the
    run ends, with a result or with a TypeError, the store it leaves is
    the old one with new node objects appended, none of the new nodes has
    a parent link, and the arrays are as they were. The arguments need not
    be trees: on the node made by [new Node(5, 7)], whose left child is a
    number, the removal of 1 ends with a TypeError and leaves that node as
    it was. *)
Theorem deleteValue_append_only (fuel : nat) (T x : val) :
  append_only (deleteValue_rec fuel T x) /\
  deleteValue_rec (3 + fuel) (VNode 0) (VNum 1)
      (mkStore [mkNode (VNum 5) (VNum 7) VNull VNull] []) =
    Throw TypeError (mkStore [mkNode (VNum 5) (VNum 7) VNull VNull] []).
Proof.
  split; [apply append_only_deleteValue_rec|reflexivity].
Qed.
